(** * ARShooter: the gesture, target, aim-assist, score and round logic

    A shallow embedding of the game core of the repository:

    - [ScoreManager]    (src/game/ScoreManager.ts)
    - [DiscManager]     (src/game/DiscManager.ts, the trophy version)
    - [ShootingSystem]  (src/game/ShootingSystem.ts)
    - [GestureDetector] (src/tracking/GestureDetector.ts)
    - [GameManager]     (src/game/GameManager.ts)
    - [Main], [App]     (src/main.ts: shoot, the pointer handler and the
                         game loop)

    JavaScript numbers are idealised: as rationals [Q] where the code only
    adds, multiplies, compares and rounds (score and round timer), and as
    reals [R] where it takes square roots, cosines or arc cosines (geometry).
    Rounding error, NaN and the infinities of IEEE doubles are outside the
    model, except for the [Infinity] the code itself writes, which is a
    constructor of [ExtR].  Every read of [performance.now()] is an explicit
    argument [now]; every [Math.random()] is a draw from the stream carried
    by the state.  Three.js meshes, materials and the scene graph are not
    modelled: only the numbers the game logic reads back. *)

From Stdlib Require Import List Bool Arith ZArith Lia.
From Stdlib Require Import QArith Qround.
From Stdlib Require Import Reals Lra Zfloor.
From Stdlib Require Import Recdef.
From Stdlib Require Lqa.
Import ListNotations.

(* ================================================================== *)
(** * Part I: the program *)
(* ================================================================== *)

(** ** ScoreManager *)

Module ScoreManager.
Local Open Scope Q_scope.

(** The private fields.  [score] only ever receives results of
    [Math.round], [combo] and [maxCombo] only [0] and [++]; [listening]
    tells whether [onScoreChange] registered a callback and [notified]
    counts its invocations. *)
Record t : Type := mk {
  score : Z;
  combo : nat;
  maxCombo : nat;
  lastHitTime : Q;
  listening : bool;
  notified : nat
}.

Definition comboTimeout : Q := 2000.
Definition basePoints : Q := 100.

Definition create : t := mk 0 0 0 0 false 0.

Definition onScoreChange (s : t) : t :=
  mk (score s) (combo s) (maxCombo s) (lastHitTime s) true (notified s).

(** [this.onChange?.()] *)
Definition fireOnChange (s : t) : t :=
  if listening s
  then mk (score s) (combo s) (maxCombo s) (lastHitTime s) true (S (notified s))
  else s.

(** [a > b] on numbers. *)
Definition Qgtb (a b : Q) : bool := negb (Qle_bool a b).

(** [Math.round]: nearest integer, halves towards plus infinity. *)
Definition Math_round (x : Q) : Z := Qfloor (x + (1 # 2)).

Definition multiplierOf (c : nat) : Q :=
  if (20 <=? c)%nat then 5
  else if (10 <=? c)%nat then 3
  else if (5 <=? c)%nat then 2
  else if (3 <=? c)%nat then 3 # 2
  else 1.

Definition getMultiplier (s : t) : Q := multiplierOf (combo s).

Record HitResult : Type := mkHit {
  points : Z;
  hitCombo : nat;
  multiplier : Q
}.

(** [hit(tierMultiplier = 1)]; [None] is the omitted argument. *)
Definition hit (s : t) (now : Q) (tierMultiplier : option Q) : HitResult * t :=
  let tm := match tierMultiplier with Some m => m | None => 1 end in
  (* Reset combo if too much time passed *)
  let c0 :=
    if Qgtb (now - lastHitTime s) comboTimeout && (0 <? combo s)%nat
    then 0%nat else combo s in
  let c1 := S c0 in
  let mc := if (maxCombo s <? c1)%nat then c1 else maxCombo s in
  let counted := mk (score s) c1 mc now (listening s) (notified s) in
  let m := getMultiplier counted in
  let pts := Math_round (basePoints * m * tm) in
  let s' :=
    fireOnChange
      (mk (score s + pts)%Z c1 mc now (listening s) (notified s)) in
  (mkHit pts c1 m, s').

Definition miss (s : t) : t :=
  fireOnChange (mk (score s) 0 (maxCombo s) (lastHitTime s) (listening s) (notified s)).

Definition getScore (s : t) : Z := score s.
Definition getCombo (s : t) : nat := combo s.
Definition getMaxCombo (s : t) : nat := maxCombo s.

Definition isComboActive (s : t) (now : Q) : bool :=
  (0 <? combo s)%nat && negb (Qle_bool comboTimeout (now - lastHitTime s)).

Definition reset (s : t) : t :=
  fireOnChange (mk 0 0 0 0 (listening s) (notified s)).

(** A call made on the score manager during a round. *)
Inductive call : Type :=
| Hit (now : Q) (tierMultiplier : option Q)
| Miss.

Definition step (s : t) (c : call) : t :=
  match c with
  | Hit now tm => snd (hit s now tm)
  | Miss => miss s
  end.

Definition run (s : t) (cs : list call) : t := fold_left step cs s.

(** The results the successive hits of a run return. *)
Fixpoint hits (s : t) (cs : list call) : list HitResult :=
  match cs with
  | [] => []
  | Hit now tm :: rest => fst (hit s now tm) :: hits (snd (hit s now tm)) rest
  | Miss :: rest => hits (miss s) rest
  end.

(** The combo a hit leaves: one more than the combo it found, or [1] when
    it found a running combo that had timed out. *)
Definition comboAfter (s : t) (now : Q) : nat :=
  S (if Qgtb (now - lastHitTime s) comboTimeout && (0 <? combo s)%nat
     then 0 else combo s).

(** A call whose tier multiplier, when given, is not negative. *)
Definition nonNegative (c : call) : Prop :=
  match c with
  | Hit _ (Some m) => 0 <= m
  | _ => True
  end.

(** The number of hits in a sequence of calls. *)
Fixpoint countHits (cs : list call) : nat :=
  match cs with
  | [] => 0
  | Hit _ _ :: rest => S (countHits rest)
  | Miss :: rest => countHits rest
  end.

End ScoreManager.

(** ** Numbers of the geometric code *)

Module JS.
Local Open Scope R_scope.

Definition Rltb (a b : R) : bool := if Rlt_dec a b then true else false.
Definition Rleb (a b : R) : bool := if Rle_dec a b then true else false.

(** A number that may be the [Infinity] the loops start from. *)
Inductive ExtR : Type :=
| Fin (r : R)
| Infinity.

(** [a < b] for a finite [a]. *)
Definition ltExt (a : R) (b : ExtR) : bool :=
  match b with
  | Fin r => Rltb a r
  | Infinity => true
  end.

Definition Math_floor (x : R) : Z := Zfloor x.

End JS.

(** ** DiscManager *)

Module DiscManager.
Import JS.
Local Open Scope R_scope.

Inductive TrophyTier : Type := bronze | silver | gold.

Record Vector2 : Type := vec2 { vx : R; vy : R }.
Record Vector3 : Type := vec3 { px : R; py : R; pz : R }.

(** [interface Trophy], without the mesh. *)
Record Trophy : Type := mkTrophy {
  id : nat;
  velocity : Vector2;
  alive : bool;
  screenX : R;
  screenY : R;
  radius : R;
  tier : TrophyTier
}.

(** A shatter fragment: the position and opacity of its mesh, its velocity
    and its remaining life. *)
Record Fragment : Type := mkFragment {
  position : Vector3;
  opacity : R;
  fvelocity : Vector3;
  life : R
}.

Definition TIER_WEIGHTS : list (TrophyTier * R) :=
  [(bronze, 0.55); (silver, 0.85); (gold, 1)].

Definition TIER_SPEED_MULT (tr : TrophyTier) : R :=
  match tr with bronze => 1 | silver => 1.2 | gold => 1.5 end.
Definition TIER_SCALE (tr : TrophyTier) : R :=
  match tr with bronze => 1 | silver => 0.85 | gold => 0.7 end.
Definition TIER_HIT_RADIUS (tr : TrophyTier) : R :=
  match tr with bronze => 90 | silver => 80 | gold => 65 end.

Definition TARGET_COUNT : nat := 4.
Definition BASE_SPEED_MIN : R := 60.
Definition BASE_SPEED_MAX : R := 120.
Definition SPEED_RAMP_INTERVAL : R := 30.
Definition SPEED_RAMP_AMOUNT : R := 15.
Definition SPEED_RAMP_MAX : R := 80.

(** The fields of the class, the size of the scene it holds ([width],
    [height], changed only by a window resize) and the stream [rand] of
    values [Math.random()] returns to it, [drawn] of them used so far. *)
Record t : Type := mk {
  width : R;
  height : R;
  rand : nat -> R;
  drawn : nat;
  trophies : list Trophy;
  nextId : nat;
  fragments : list Fragment;
  elapsedTime : R
}.

(** [new DiscManager(scene, assets)] *)
Definition create (w h : R) (rnd : nat -> R) : t :=
  mk w h rnd 0 [] 0 [] 0.

Definition resize (st : t) (w h : R) : t :=
  mk w h (rand st) (drawn st) (trophies st) (nextId st) (fragments st)
     (elapsedTime st).

(** [SceneManager.screenToWorld] *)
Definition screenToWorld (st : t) (sx sy : R) : Vector3 :=
  vec3 (sx - width st / 2) (height st / 2 - sy) 0.

Definition getSpeedBonus (st : t) : R :=
  let intervals := IZR (Math_floor (elapsedTime st / SPEED_RAMP_INTERVAL)) in
  Rmin (intervals * SPEED_RAMP_AMOUNT) SPEED_RAMP_MAX.

Fixpoint pickFrom (r : R) (table : list (TrophyTier * R)) : TrophyTier :=
  match table with
  | [] => bronze
  | (tr, threshold) :: rest => if Rltb r threshold then tr else pickFrom r rest
  end.

(** [pickTier], on the value [r] drawn. *)
Definition pickTier (r : R) : TrophyTier := pickFrom r TIER_WEIGHTS.

Definition spawnTrophy (st : t) : t :=
  let r := fun i : nat => rand st (drawn st + i) in
  let w := width st in
  let h := height st in
  let tr := pickTier (r 0%nat) in
  let edge := Math_floor (r 1%nat * 4) in
  let margin := 60 in
  let start :=
    match edge with
    | 0%Z => (r 2%nat * w, - margin)
    | 1%Z => (w + margin, r 2%nat * h)
    | 2%Z => (r 2%nat * w, h + margin)
    | _ => (- margin, r 2%nat * h)
    end in
  let startX := fst start in
  let startY := snd start in
  let targetX := w / 2 + (r 3%nat - 0.5) * w * 0.4 in
  let targetY := h / 2 + (r 4%nat - 0.5) * h * 0.4 in
  let dx := targetX - startX in
  let dy := targetY - startY in
  let dist := sqrt (dx * dx + dy * dy) in
  let bonus := getSpeedBonus st in
  let baseSpeed :=
    BASE_SPEED_MIN + bonus + r 5%nat * (BASE_SPEED_MAX - BASE_SPEED_MIN) in
  let speed := baseSpeed * TIER_SPEED_MULT tr in
  let v := vec2 (dx / dist * speed) (dy / dist * speed) in
  mk w h (rand st) (drawn st + 6)
     (trophies st ++
        [mkTrophy (nextId st) v true startX startY (TIER_HIT_RADIUS tr) tr])
     (S (nextId st)) (fragments st) (elapsedTime st).

(** [for (let i = 0; i < TARGET_COUNT; i++) this.spawnTrophy()] *)
Fixpoint spawnTimes (n : nat) (st : t) : t :=
  match n with
  | O => st
  | S k => spawnTimes k (spawnTrophy st)
  end.

Definition start (st : t) : t := spawnTimes TARGET_COUNT st.

(** [removeTrophy], on the trophy object. *)
Definition removeTrophy (tr : Trophy) : Trophy :=
  mkTrophy (id tr) (velocity tr) false (screenX tr) (screenY tr) (radius tr)
           (tier tr).

(** The body of the loop over the trophies in [update]. *)
Definition moveTrophy (w h dt : R) (tr : Trophy) : Trophy :=
  if negb (alive tr) then tr
  else
    let x := screenX tr + vx (velocity tr) * dt in
    let y := screenY tr + vy (velocity tr) * dt in
    let moved :=
      mkTrophy (id tr) (velocity tr) true x y (radius tr) (tier tr) in
    let margin := 100 in
    if Rltb x (- margin) || Rltb (w + margin) x
       || Rltb y (- margin) || Rltb (h + margin) y
    then removeTrophy moved
    else moved.

Definition stepFragment (dt : R) (f : Fragment) : Fragment :=
  let p := position f in
  let v := fvelocity f in
  let l := life f - dt in
  mkFragment
    (vec3 (px p + px v * dt) (py p + py v * dt) (pz p + pz v * dt))
    (Rmax 0 (l / 0.8))
    (vec3 (px v) (py v - 400 * dt) (pz v))
    l.

(** The loop over the fragments, from the last index down to the first:
    each one is advanced, and spliced out when its life is used up. *)
Definition updateFragments (dt : R) (fs : list Fragment) : list Fragment :=
  fold_right
    (fun f kept =>
       let f' := stepFragment dt f in
       if Rleb (life f') 0 then kept else f' :: kept)
    [] fs.

(** [while (this.trophies.length < TARGET_COUNT) this.spawnTrophy()] *)
Function replenish (st : t)
    {measure (fun s => TARGET_COUNT - length (trophies s))%nat st} : t :=
  if (length (trophies st) <? TARGET_COUNT)%nat
  then replenish (spawnTrophy st)
  else st.
Proof.
  intros st H. apply Nat.ltb_lt in H.
  unfold spawnTrophy; cbn [trophies]. rewrite length_app; cbn [length].
  lia.
Defined.

Definition update (st : t) (dt : R) : t :=
  let elapsed := elapsedTime st + dt in
  let moved := map (moveTrophy (width st) (height st) dt) (trophies st) in
  let frags := updateFragments dt (fragments st) in
  replenish
    (mk (width st) (height st) (rand st) (drawn st)
        (filter alive moved) (nextId st) frags elapsed).

(** The scan of [checkHit]: [i] is the index of the head of [ts] in the
    array, [closest] the element the variable refers to, with its index. *)
Fixpoint scanHit (x y : R) (ts : list Trophy) (i : nat)
    (closest : option (nat * Trophy)) (closestDist : ExtR)
    : option (nat * Trophy) :=
  match ts with
  | [] => closest
  | trophy :: rest =>
      if negb (alive trophy) then scanHit x y rest (S i) closest closestDist
      else
        let dx := x - screenX trophy in
        let dy := y - screenY trophy in
        let dist := sqrt (dx * dx + dy * dy) in
        if Rltb dist (radius trophy) && ltExt dist closestDist
        then scanHit x y rest (S i) (Some (i, trophy)) (Fin dist)
        else scanHit x y rest (S i) closest closestDist
  end.

(** [trophy.alive = false] on the element at index [i]. *)
Fixpoint killAt (i : nat) (ts : list Trophy) : list Trophy :=
  match ts, i with
  | [], _ => []
  | tr :: rest, O => removeTrophy tr :: rest
  | tr :: rest, S k => tr :: killAt k rest
  end.

Definition fragCountOf (tr : TrophyTier) : nat :=
  match tr with gold => 12 | silver => 10 | bronze => 8 end.

(** The fragment built in round [i] of the loop of [shatterTrophy], from
    the four values [r 0 .. r 3] drawn in that round ([r 0] sizes the
    geometry of the mesh). *)
Definition newFragment (pos : Vector3) (fragCount i : nat) (r : nat -> R)
    : Fragment :=
  let angle := (PI * 2 * INR i) / INR fragCount + r 1%nat * 0.5 in
  let spd := 200 + r 2%nat * 300 in
  mkFragment pos 1
    (vec3 (cos angle * spd) (sin angle * spd + 100) ((r 3%nat - 0.5) * 200))
    0.8.

Fixpoint newFragments (pos : Vector3) (fragCount : nat) (rnd : nat -> R)
    (from i n : nat) : list Fragment :=
  match n with
  | O => []
  | S k =>
      newFragment pos fragCount i (fun j => rnd (from + j)%nat)
      :: newFragments pos fragCount rnd (from + 4) (S i) k
  end.

(** [shatterTrophy(trophy)], [trophy] being the element at index [i]. *)
Definition shatterTrophy (st : t) (i : nat) (trophy : Trophy) : t :=
  let pos := screenToWorld st (screenX trophy) (screenY trophy) in
  let fragCount := fragCountOf (tier trophy) in
  mk (width st) (height st) (rand st) (drawn st + 4 * fragCount)
     (killAt i (trophies st)) (nextId st)
     (fragments st
        ++ newFragments pos fragCount (rand st) (drawn st) 0 fragCount)
     (elapsedTime st).

Record Hit : Type := mkHit {
  hitX : R;
  hitY : R;
  hitTier : TrophyTier
}.

(** [checkHit(screenX, screenY)]: the result ([None] is [null]) and the
    state it leaves. *)
Definition checkHit (st : t) (x y : R) : option Hit * t :=
  match scanHit x y (trophies st) 0 None Infinity with
  | Some (i, closest) =>
      (Some (mkHit (screenX closest) (screenY closest) (tier closest)),
       shatterTrophy st i closest)
  | None => (None, st)
  end.

Definition getDiscPositions (st : t) : list (R * R) :=
  map (fun tr => (screenX tr, screenY tr)) (filter alive (trophies st)).

Definition dispose (st : t) : t :=
  mk (width st) (height st) (rand st) (drawn st) [] (nextId st) []
     (elapsedTime st).

(** The number of live targets. *)
Definition liveCount (st : t) : nat := length (filter alive (trophies st)).

(** The calls the game loop makes on a started disc manager. *)
Inductive call : Type :=
| Update (dt : R)
| CheckHit (x y : R)
| Resize (w h : R).

Definition step (st : t) (c : call) : t :=
  match c with
  | Update dt => update st dt
  | CheckHit x y => snd (checkHit st x y)
  | Resize w h => resize st w h
  end.

Definition run (st : t) (cs : list call) : t := fold_left step cs st.

(** The distance [checkHit] computes from the query point to a trophy. *)
Definition distTo (x y : R) (tr : Trophy) : R :=
  sqrt ((x - screenX tr) * (x - screenX tr) + (y - screenY tr) * (y - screenY tr)).

(** A live trophy whose hit circle contains the query point. *)
Definition inRange (x y : R) (tr : Trophy) : Prop :=
  alive tr = true /\ distTo x y tr < radius tr.

(** What the scan of [checkHit] knows after the trophies [seen]: nothing
    in range so far, or the first of the closest trophies in range. *)
Definition scanned (x y : R) (seen : list Trophy)
    (closest : option (nat * Trophy)) (closestDist : ExtR) : Prop :=
  match closest with
  | None =>
      closestDist = Infinity
      /\ forall tr, In tr seen -> ~ inRange x y tr
  | Some (j, c) =>
      closestDist = Fin (distTo x y c)
      /\ nth_error seen j = Some c
      /\ inRange x y c
      /\ (forall tr, In tr seen -> inRange x y tr ->
                     distTo x y c <= distTo x y tr)
      /\ (forall k tr, (k < j)%nat -> nth_error seen k = Some tr ->
                       inRange x y tr -> distTo x y c < distTo x y tr)
  end.

(** A trophy's hit radius is the one of its tier. *)
Definition tierRadius (tr : Trophy) : Prop :=
  radius tr = TIER_HIT_RADIUS (tier tr).

(** Two live trophies whose hit circles overlap: a bronze one at (0,0),
    radius 90, and a silver one at (100,0), radius 80. *)
Definition overlapping : t :=
  mk 800 600 (fun _ => 0) 12
     [mkTrophy 0 (vec2 10 0) true 0 0 90 bronze;
      mkTrophy 1 (vec2 (-10) 0) true 100 0 80 silver]
     2 [] 0.

(** Everything that is called on a disc manager: [start], [dispose] and
    the calls of the game loop. *)
Inductive op : Type :=
| Start
| Dispose
| Call (c : call).

Definition applyOp (st : t) (o : op) : t :=
  match o with
  | Start => start st
  | Dispose => dispose st
  | Call c => step st c
  end.

Definition runOps (st : t) (os : list op) : t := fold_left applyOp os st.

(** An operation that does not run the clock backwards. *)
Definition forwardOp (o : op) : Prop :=
  match o with
  | Call (Update dt) => 0 <= dt
  | _ => True
  end.

(** The ids in use are pairwise distinct and below the next id. *)
Definition idsFresh (st : t) : Prop :=
  NoDup (map id (trophies st))
  /\ Forall (fun tr => (id tr < nextId st)%nat) (trophies st).

(** The test of [checkHit] on one trophy. *)
Definition inRangeb (x y : R) (tr : Trophy) : bool :=
  alive tr && Rltb (distTo x y tr) (radius tr).

(** The number of live trophies whose hit circle contains the point. *)
Definition inRangeCount (x y : R) (st : t) : nat :=
  length (filter (inRangeb x y) (trophies st)).

(** A trophy no farther than the despawn margin outside a [w] by [h]
    viewport. *)
Definition inView (w h : R) (tr : Trophy) : Prop :=
  - 100 <= screenX tr <= w + 100 /\ - 100 <= screenY tr <= h + 100.

(** [Math.random()] returns values in [0, 1). *)
Definition unitRandom (st : t) : Prop := forall n, 0 <= rand st n < 1.


(** A fragment within its 0.8 s of life, with an opacity in [0, 1]. *)
Definition fading (f : Fragment) : Prop :=
  0 < life f <= 0.8 /\ 0 <= opacity f <= 1.

(** The time a list of frame deltas adds up to. *)
Fixpoint totalTime (dts : list R) : R :=
  match dts with
  | [] => 0
  | dt :: rest => dt + totalTime rest
  end.

(** The fragments after one update for each of the frame deltas. *)
Definition aged (dts : list R) (fs : list Fragment) : list Fragment :=
  fold_left (fun kept dt => updateFragments dt kept) dts fs.

(** The two overlapping trophies after a shot at (45,0). *)
Definition shattered : t := snd (checkHit overlapping 45 0).

End DiscManager.

(** ** The shoot function of the entry point (src/main.ts) *)

Module Main.

(** Trophy tier scoring: Gold=5x, Silver=2x, Bronze=1x *)
Definition TIER_SCORE (tr : DiscManager.TrophyTier) : Q :=
  match tr with
  | DiscManager.gold => 5
  | DiscManager.silver => 2
  | DiscManager.bronze => 1
  end.

(** [shoot(x, y)], on the disc manager and the score manager it closes
    over: a hit test, then a hit with the multiplier of the tier, or a
    miss. *)
Definition shoot (dm : DiscManager.t) (sm : ScoreManager.t) (x y : R)
    (now : Q) : DiscManager.t * ScoreManager.t :=
  match DiscManager.checkHit dm x y with
  | (Some h, dm') =>
      (dm',
       snd (ScoreManager.hit sm now
              (Some (TIER_SCORE (DiscManager.hitTier h)))))
  | (None, dm') => (dm', ScoreManager.miss sm)
  end.

End Main.

(** ** ShootingSystem *)

Module ShootingSystem.
Import JS.
Local Open Scope R_scope.

Record ScreenPosition : Type := pos { x : R; y : R }.

Definition AIM_ASSIST_RADIUS : R := 150.
Definition AIM_ASSIST_STRENGTH : R := 0.45.

(** The aim state and the visibility of the crosshair and of the laser
    line; the muzzle flash and the tracer are animations that do not feed
    back into it. *)
Record t : Type := mk {
  currentAim : ScreenPosition;
  isLocked : bool;
  crosshairVisible : bool;
  laserVisible : bool
}.

Definition create : t := mk (pos 0 0) false false false.

(** The local variables the aim-assist loop updates. *)
Record Assist : Type := mkAssist {
  aimX : R;
  aimY : R;
  locked : bool;
  closestDist : ExtR
}.

Definition assistStep (rawAim : ScreenPosition) (a : Assist)
    (disc : ScreenPosition) : Assist :=
  let dx := x rawAim - x disc in
  let dy := y rawAim - y disc in
  let dist := sqrt (dx * dx + dy * dy) in
  if Rltb dist AIM_ASSIST_RADIUS && ltExt dist (closestDist a)
  then
    (* Pull toward disc based on proximity *)
    let pullStrength := AIM_ASSIST_STRENGTH * (1 - dist / AIM_ASSIST_RADIUS) in
    mkAssist (x rawAim + (x disc - x rawAim) * pullStrength)
             (y rawAim + (y disc - y rawAim) * pullStrength)
             (Rltb dist (AIM_ASSIST_RADIUS * 0.5))
             (Fin dist)
  else a.

Definition assist (rawAim : ScreenPosition)
    (discPositions : list ScreenPosition) : Assist :=
  fold_left (assistStep rawAim) discPositions
            (mkAssist (x rawAim) (y rawAim) false Infinity).

(** [update(rawAim, handBase, discPositions)]; [None] is [null]. *)
Definition update (s : t) (rawAim handBase : option ScreenPosition)
    (discPositions : list ScreenPosition) : option ScreenPosition * t :=
  match rawAim, handBase with
  | Some raw, Some _ =>
      let a := assist raw discPositions in
      let aim := pos (aimX a) (aimY a) in
      (Some aim, mk aim (locked a) true true)
  | _, _ => (None, mk (currentAim s) (isLocked s) false false)
  end.

Definition getAimPosition (s : t) : ScreenPosition := currentAim s.
Definition isTargetLocked (s : t) : bool := isLocked s.

Definition hide (s : t) : t := mk (currentAim s) (isLocked s) false false.

(** The distance the loop computes between the raw aim and a disc. *)
Definition distance (p q : ScreenPosition) : R :=
  sqrt ((x p - x q) * (x p - x q) + (y p - y q) * (y p - y q)).

(** What the aim-assist loop has computed after the discs [seen]: the raw
    aim when none of them is within the assist radius, and otherwise the
    raw aim pulled towards a closest one [c], by the strength
    [0.45 * (1 - distance / 150)]. *)
Definition assisted (rawAim : ScreenPosition) (seen : list ScreenPosition)
    (a : Assist) : Prop :=
  match closestDist a with
  | Infinity =>
      aimX a = x rawAim /\ aimY a = y rawAim /\ locked a = false
      /\ forall d, In d seen -> AIM_ASSIST_RADIUS <= distance rawAim d
  | Fin r =>
      exists c,
        In c seen /\ r = distance rawAim c /\ r < AIM_ASSIST_RADIUS
        /\ (forall d, In d seen -> r <= distance rawAim d)
        /\ aimX a
           = x rawAim
             + (x c - x rawAim)
               * (AIM_ASSIST_STRENGTH * (1 - r / AIM_ASSIST_RADIUS))
        /\ aimY a
           = y rawAim
             + (y c - y rawAim)
               * (AIM_ASSIST_STRENGTH * (1 - r / AIM_ASSIST_RADIUS))
        /\ locked a = Rltb r (AIM_ASSIST_RADIUS * 0.5)
  end.

End ShootingSystem.

(** ** GestureDetector *)

Module GestureDetector.
Import JS.
Local Open Scope R_scope.

Record HandLandmark : Type := lm { x : R; y : R; z : R }.
Record ScreenPosition : Type := pos { sx : R; sy : R }.

Record GestureState : Type := mkGesture {
  isPistol : bool;
  aimPosition : option ScreenPosition;
  handBase : option ScreenPosition;
  triggered : bool
}.

Record DebugInfo : Type := mkDebug {
  hasHand : bool;
  dbgIndexExtended : bool;
  dbgCurledCount : nat;
  dbgThumbAngle : R;
  dbgIsPistol : bool;
  dbgTriggered : bool
}.

Definition SHOOT_COOLDOWN : R := 500.
Definition THUMB_BENT_ANGLE : R := 155.

Record t : Type := mk {
  lastShotTime : R;
  debugInfo : DebugInfo
}.

Definition create : t := mk 0 (mkDebug false false 0 180 false false).

Definition reset (s : t) : t := mk 0 (debugInfo s).

Definition dist3D (a b : HandLandmark) : R :=
  let dx := x a - x b in
  let dy := y a - y b in
  let dz := z a - z b in
  sqrt (dx * dx + dy * dy + dz * dz).

(** Angle (degrees) at joint B, formed by points A-B-C *)
Definition angleAtJoint (a b c : HandLandmark) : R :=
  let v1 := lm (x a - x b) (y a - y b) (z a - z b) in
  let v2 := lm (x c - x b) (y c - y b) (z c - z b) in
  let dot := x v1 * x v2 + y v1 * y v2 + z v1 * z v2 in
  let mag1 := sqrt (x v1 ^ 2 + y v1 ^ 2 + z v1 ^ 2) in
  let mag2 := sqrt (x v2 ^ 2 + y v2 ^ 2 + z v2 ^ 2) in
  if Rltb mag1 0.0001 || Rltb mag2 0.0001 then 180
  else
    let cosAngle := Rmax (-1) (Rmin 1 (dot / (mag1 * mag2))) in
    acos cosAngle * (180 / PI).

(** [landmarks[i]], for an index the array has. *)
Definition at_ (landmarks : list HandLandmark) (i : nat) : HandLandmark :=
  nth i landmarks (lm 0 0 0).

Definition noGesture : GestureState := mkGesture false None None false.

(** The angle at the thumb's IP joint (landmarks 2, 3, 4). *)
Definition thumbAngleOf (landmarks : list HandLandmark) : R :=
  angleAtJoint (at_ landmarks 2) (at_ landmarks 3) (at_ landmarks 4).

(** [detect(landmarks, screenWidth, screenHeight)], reading the clock as
    [now]; [None] is a [null] landmark list. *)
Definition detect (s : t) (landmarks : option (list HandLandmark))
    (screenWidth screenHeight now : R) : GestureState * t :=
  match landmarks with
  | None =>
      (noGesture,
       mk (lastShotTime s)
          (let d := debugInfo s in
           mkDebug false (dbgIndexExtended d) (dbgCurledCount d)
                   (dbgThumbAngle d) (dbgIsPistol d) (dbgTriggered d)))
  | Some l =>
      if (length l <? 21)%nat then
        (noGesture,
         mk (lastShotTime s)
            (let d := debugInfo s in
             mkDebug false (dbgIndexExtended d) (dbgCurledCount d)
                     (dbgThumbAngle d) (dbgIsPistol d) (dbgTriggered d)))
      else
        let wrist := at_ l 0 in
        (* Finger extension via wrist-distance *)
        let idxTipW := dist3D (at_ l 8) wrist in
        let idxPipW := dist3D (at_ l 6) wrist in
        let midTipW := dist3D (at_ l 12) wrist in
        let midPipW := dist3D (at_ l 10) wrist in
        let ringTipW := dist3D (at_ l 16) wrist in
        let ringPipW := dist3D (at_ l 14) wrist in
        let pinkyTipW := dist3D (at_ l 20) wrist in
        let pinkyPipW := dist3D (at_ l 18) wrist in
        let indexExtended := Rltb idxPipW idxTipW in
        let curledCount :=
          ((if Rltb midTipW (midPipW * 1.15) then 1 else 0)
           + (if Rltb ringTipW (ringPipW * 1.15) then 1 else 0)
           + (if Rltb pinkyTipW (pinkyPipW * 1.15) then 1 else 0))%nat in
        let pistol := indexExtended && (1 <=? curledCount)%nat in
        (* Aim from index fingertip *)
        let aim := pos ((1 - x (at_ l 8)) * screenWidth)
                       (y (at_ l 8) * screenHeight) in
        let base := pos ((1 - x (at_ l 0)) * screenWidth)
                        (y (at_ l 0) * screenHeight) in
        let thumbAngle := thumbAngleOf l in
        let trig :=
          Rltb thumbAngle THUMB_BENT_ANGLE
          && Rltb SHOOT_COOLDOWN (now - lastShotTime s) in
        (mkGesture pistol (Some aim) (Some base) trig,
         mk (if trig then now else lastShotTime s)
            (mkDebug true indexExtended curledCount thumbAngle pistol trig))
  end.

(** A hand of 21 landmarks whose thumb is bent at a right angle: the MCP
    joint (2) at (1,0,0), the IP joint (3) at the origin, the tip (4) at
    (0,1,0). *)
Definition bentThumbHand : list HandLandmark :=
  [lm 0 0 0; lm 0 0 0; lm 1 0 0; lm 0 0 0; lm 0 1 0]
    ++ repeat (lm 0 0 0) 16.

(** A hand of 21 landmarks that all coincide. *)
Definition pointHand : list HandLandmark := repeat (lm 0 0 0) 21.

(** A hand of 21 landmarks whose thumb makes the angle [deg] (in degrees)
    at the IP joint: MCP at (1,0,0), IP at the origin, tip on the unit
    circle of the plane [z = 0]. *)
Definition handWithThumbAt (deg : R) : list HandLandmark :=
  [lm 0 0 0; lm 0 0 0; lm 1 0 0; lm 0 0 0;
   lm (cos (deg * (PI / 180))) (sin (deg * (PI / 180))) 0]
    ++ repeat (lm 0 0 0) 16.

(** One frame of the loop: the landmark list the tracker has, and the
    clock read by [detect]. *)
Record Frame : Type := mkFrame {
  frameLandmarks : option (list HandLandmark);
  frameNow : R
}.

(** The detector after a sequence of frames. *)
Fixpoint afterFrames (s : t) (w h : R) (frames : list Frame) : t :=
  match frames with
  | [] => s
  | f :: rest =>
      afterFrames (snd (detect s (frameLandmarks f) w h (frameNow f))) w h rest
  end.

(** The times of the frames that fired, in order. *)
Fixpoint fireTimes (s : t) (w h : R) (frames : list Frame) : list R :=
  match frames with
  | [] => []
  | f :: rest =>
      let r := detect s (frameLandmarks f) w h (frameNow f) in
      if triggered (fst r)
      then frameNow f :: fireTimes (snd r) w h rest
      else fireTimes (snd r) w h rest
  end.

(** Times that each come more than 500 ms after the one before, the
    first one after [last]. *)
Fixpoint spaced (last : R) (times : list R) : Prop :=
  match times with
  | [] => True
  | t0 :: rest => SHOOT_COOLDOWN < t0 - last /\ spaced t0 rest
  end.

End GestureDetector.

(** ** GameManager *)

Module GameManager.
Local Open Scope Q_scope.

Inductive GameState : Type := IDLE | PLAYING | GAME_OVER.

Definition ROUND_DURATION : Q := 60.

(** The fields of the class, with the two managers it holds references
    to; [onGameOver] tells whether a callback is set and [gameOverFired]
    counts its invocations. *)
Record t : Type := mk {
  state : GameState;
  timeRemaining : Q;
  scoreManager : ScoreManager.t;
  discManager : DiscManager.t;
  onGameOver : bool;
  gameOverFired : nat
}.

Definition create (sm : ScoreManager.t) (dm : DiscManager.t) : t :=
  mk IDLE ROUND_DURATION sm dm false 0.

Definition setOnGameOver (g : t) : t :=
  mk (state g) (timeRemaining g) (scoreManager g) (discManager g) true
     (gameOverFired g).

Definition isPlaying (g : t) : bool :=
  match state g with PLAYING => true | _ => false end.

Definition startGame (g : t) : t :=
  if isPlaying g then g
  else
    mk PLAYING ROUND_DURATION
       (ScoreManager.reset (scoreManager g))
       (DiscManager.start (discManager g))
       (onGameOver g) (gameOverFired g).

Definition endGame (g : t) : t :=
  if negb (isPlaying g) then g
  else
    mk GAME_OVER (timeRemaining g) (scoreManager g) (discManager g)
       (onGameOver g)
       (if onGameOver g then S (gameOverFired g) else gameOverFired g).

Definition update (g : t) (dt : Q) : t :=
  if negb (isPlaying g) then g
  else
    let remaining := timeRemaining g - dt in
    if Qle_bool remaining 0
    then
      endGame (mk (state g) 0 (scoreManager g) (discManager g)
                  (onGameOver g) (gameOverFired g))
    else
      mk (state g) remaining (scoreManager g) (discManager g)
         (onGameOver g) (gameOverFired g).

Definition restart (g : t) : t :=
  mk IDLE (timeRemaining g) (scoreManager g) (discManager g)
     (onGameOver g) (gameOverFired g).

Definition getState (g : t) : GameState := state g.
Definition getTimeRemaining (g : t) : Q := timeRemaining g.

(** The calls that change a game manager. *)
Inductive call : Type :=
| StartGame
| Update (dt : Q)
| EndGame
| Restart
| SetOnGameOver.

Definition step (g : t) (c : call) : t :=
  match c with
  | StartGame => startGame g
  | Update dt => update g dt
  | EndGame => endGame g
  | Restart => restart g
  | SetOnGameOver => setOnGameOver g
  end.

Definition run (g : t) (cs : list call) : t := fold_left step cs g.

(** The number of [startGame] calls in a sequence. *)
Fixpoint countStarts (cs : list call) : nat :=
  match cs with
  | [] => 0
  | StartGame :: rest => S (countStarts rest)
  | _ :: rest => countStarts rest
  end.

(** A call that does not run the clock backwards. *)
Definition forward (c : call) : Prop :=
  match c with
  | Update dt => 0 <= dt
  | _ => True
  end.

(** The time a list of frame deltas adds up to. *)
Fixpoint total (dts : list Q) : Q :=
  match dts with
  | [] => 0
  | dt :: rest => dt + total rest
  end.

End GameManager.

(** ** The game loop and the pointer handler (src/main.ts) *)

Module App.

Definition HIT_STOP_DURATION : Q := 60.

(** The variables [init] closes over.  The game manager carries the score
    manager and the disc manager; the size of the scene is the one the
    disc manager holds.  Sound, music, HUD and overlay screens are not
    modelled. *)
Record t : Type := mk {
  gameManager : GameManager.t;
  gestureDetector : GestureDetector.t;
  shootingSystem : ShootingSystem.t;
  tapPosition : option (R * R);
  lastAim : option GestureDetector.ScreenPosition;
  lastTime : Q;
  frameCount : nat;
  pistolHeldFrames : Z;
  hitStopUntil : Q
}.

(** What one run of [gameLoop] reads from outside: the landmarks of the
    first hand of the tracker's latest results ([None] when there is
    none), and the clock, once per [performance.now()] the frame can
    reach: at the top of the loop, in [detect], in the hit-stop test, and
    in the hit and in the hit stop of each of the two shots. *)
Record Frame : Type := mkFrame {
  landmarks : option (list GestureDetector.HandLandmark);
  nowLoop : Q;
  nowDetect : Q;
  nowFrozen : Q;
  nowHit1 : Q;
  nowStop1 : Q;
  nowHit2 : Q;
  nowStop2 : Q
}.

(** The state after [init]: everything is constructed, the game-over
    handler is set, and the clock has been read once for [lastTime]. *)
Definition init (w h : R) (rnd : nat -> R) (now : Q) : t :=
  mk (GameManager.setOnGameOver
        (GameManager.create ScoreManager.create (DiscManager.create w h rnd)))
     GestureDetector.create ShootingSystem.create None None now 0 0 0.

Definition withGameManager (a : t) (g : GameManager.t) : t :=
  mk g (gestureDetector a) (shootingSystem a) (tapPosition a) (lastAim a)
     (lastTime a) (frameCount a) (pistolHeldFrames a) (hitStopUntil a).

(** The game manager with its two managers replaced: a call made on the
    score manager or the disc manager directly. *)
Definition withManagers (g : GameManager.t) (sm : ScoreManager.t)
    (dm : DiscManager.t) : GameManager.t :=
  GameManager.mk (GameManager.state g) (GameManager.timeRemaining g) sm dm
                 (GameManager.onGameOver g) (GameManager.gameOverFired g).

Definition scoreOf (a : t) : ScoreManager.t :=
  GameManager.scoreManager (gameManager a).
Definition discsOf (a : t) : DiscManager.t :=
  GameManager.discManager (gameManager a).
Definition stateOf (a : t) : GameManager.GameState :=
  GameManager.state (gameManager a).

(** [shoot(x, y)]: the hit test, then a hit with the multiplier of the
    tier and a hit stop of 60 ms, or a miss. *)
Definition shoot (a : t) (x y : R) (nowHit nowStop : Q) : t :=
  let hit := fst (DiscManager.checkHit (discsOf a) x y) in
  let managers := Main.shoot (discsOf a) (scoreOf a) x y nowHit in
  mk (withManagers (gameManager a) (snd managers) (fst managers))
     (gestureDetector a) (shootingSystem a) (tapPosition a) (lastAim a)
     (lastTime a) (frameCount a) (pistolHeldFrames a)
     (match hit with
      | Some _ => (nowStop + HIT_STOP_DURATION)%Q
      | None => hitStopUntil a
      end).

(** The handler of [pointerdown]. *)
Definition pointerdown (a : t) (x y : R) : t :=
  match stateOf a with
  | GameManager.IDLE =>
      (* Tap to start *)
      withGameManager a (GameManager.startGame (gameManager a))
  | GameManager.GAME_OVER =>
      (* Tap to restart *)
      let g := GameManager.restart (gameManager a) in
      let g' :=
        withManagers g (GameManager.scoreManager g)
                     (DiscManager.dispose (GameManager.discManager g)) in
      mk g' (GestureDetector.reset (gestureDetector a)) (shootingSystem a)
         (tapPosition a) (lastAim a) (lastTime a) (frameCount a)
         (pistolHeldFrames a) (hitStopUntil a)
  | GameManager.PLAYING =>
      (* Playing - tap to shoot *)
      mk (gameManager a) (gestureDetector a) (shootingSystem a) (Some (x, y))
         (lastAim a) (lastTime a) (frameCount a) (pistolHeldFrames a)
         (hitStopUntil a)
  end.

(** The window is resized: the scene takes the new size. *)
Definition resize (a : t) (w h : R) : t :=
  withGameManager a
    (withManagers (gameManager a) (scoreOf a)
                  (DiscManager.resize (discsOf a) w h)).

Definition toAim (p : GestureDetector.ScreenPosition)
    : ShootingSystem.ScreenPosition :=
  ShootingSystem.pos (GestureDetector.sx p) (GestureDetector.sy p).

Definition toDisc (p : R * R) : ShootingSystem.ScreenPosition :=
  ShootingSystem.pos (fst p) (snd p).

(** [Math.min] on the frame delta. *)
Definition Math_min (a b : Q) : Q := if Qle_bool a b then a else b.

(** The pistol-hold counter of the idle branch, after one more frame. *)
Definition heldAfter (held : Z) (isPistol : bool) : Z :=
  if isPistol then (held + 1)%Z else Z.max 0 (held - 1).

(** One run of [gameLoop]. *)
Definition frame (a : t) (f : Frame) : t :=
  let now := nowLoop f in
  let dt := Math_min ((now - lastTime a) / 1000) (1 # 10) in
  let count := S (frameCount a) in
  let size := discsOf a in
  let detected :=
    GestureDetector.detect (gestureDetector a) (landmarks f)
                           (DiscManager.width size) (DiscManager.height size)
                           (Q2R (nowDetect f)) in
  let gesture := fst detected in
  let detector := snd detected in
  (* Track aim *)
  let aimed :=
    match GestureDetector.aimPosition gesture with
    | Some p => Some p
    | None => lastAim a
    end in
  match stateOf a with
  | GameManager.IDLE =>
      (* Pistol gesture can also start the game *)
      let held := heldAfter (pistolHeldFrames a) (GestureDetector.isPistol gesture) in
      let starts := (8 <=? held)%Z in
      (* Show crosshair even on start screen for feedback *)
      let shooting :=
        match GestureDetector.aimPosition gesture,
              GestureDetector.handBase gesture with
        | Some p, Some b =>
            snd (ShootingSystem.update (shootingSystem a) (Some (toAim p))
                                       (Some (toAim b)) [])
        | _, _ => ShootingSystem.hide (shootingSystem a)
        end in
      mk (if starts then GameManager.startGame (gameManager a)
          else gameManager a)
         detector shooting (tapPosition a) aimed now count
         (if starts then 0%Z else held) (hitStopUntil a)
  | GameManager.GAME_OVER =>
      mk (gameManager a) detector (ShootingSystem.hide (shootingSystem a))
         (tapPosition a) aimed now count (pistolHeldFrames a) (hitStopUntil a)
  | GameManager.PLAYING =>
      let frozen := negb (Qle_bool (hitStopUntil a) (nowFrozen f)) in
      let discPositions := DiscManager.getDiscPositions (discsOf a) in
      let assisted :=
        ShootingSystem.update (shootingSystem a)
          (option_map toAim (GestureDetector.aimPosition gesture))
          (option_map toAim (GestureDetector.handBase gesture))
          (map toDisc discPositions) in
      let finalAim := fst assisted in
      let a0 :=
        mk (gameManager a) detector (snd assisted) (tapPosition a) aimed now
           count (pistolHeldFrames a) (hitStopUntil a) in
      (* 1. Gesture trigger (thumb pull) - uses lastAim if pistol briefly breaks *)
      let a1 :=
        if GestureDetector.triggered gesture then
          match finalAim, aimed with
          | Some p, _ =>
              shoot a0 (ShootingSystem.x p) (ShootingSystem.y p)
                    (nowHit1 f) (nowStop1 f)
          | None, Some p =>
              shoot a0 (GestureDetector.sx p) (GestureDetector.sy p)
                    (nowHit1 f) (nowStop1 f)
          | None, None => a0
          end
        else a0 in
      (* 2. Tap-to-shoot: fire at tap position directly *)
      let a2 :=
        match tapPosition a1 with
        | Some tap =>
            let shot := shoot a1 (fst tap) (snd tap) (nowHit2 f) (nowStop2 f) in
            mk (gameManager shot) (gestureDetector shot) (shootingSystem shot)
               None (lastAim shot) (lastTime shot) (frameCount shot)
               (pistolHeldFrames shot) (hitStopUntil shot)
        | None => a1
        end in
      (* During hit stop: skip game updates but still render *)
      if frozen then a2
      else
        let g := GameManager.update (gameManager a2) dt in
        withGameManager a2
          (withManagers g (GameManager.scoreManager g)
             (DiscManager.update (GameManager.discManager g) (Q2R dt)))
  end.

(** What happens to the running application. *)
Inductive event : Type :=
| Pointerdown (x y : R)
| AnimationFrame (f : Frame)
| WindowResize (w h : R).

Definition step (a : t) (e : event) : t :=
  match e with
  | Pointerdown x y => pointerdown a x y
  | AnimationFrame f => frame a f
  | WindowResize w h => resize a w h
  end.

Definition run (a : t) (es : list event) : t := fold_left step es a.





(** The trophies the disc manager holds fit the state of the game: none
    while idle, exactly four while playing and when the game is over. *)
Definition populated (a : t) : Prop :=
  match stateOf a with
  | GameManager.IDLE => DiscManager.trophies (discsOf a) = []
  | _ => length (DiscManager.trophies (discsOf a)) = DiscManager.TARGET_COUNT
  end.

End App.

(* ================================================================== *)
(** * Part II: properties *)
(* ================================================================== *)

(** ** ScoreManager: combo, multiplier and score *)

Module ScoreManagerFacts.
Import ScoreManager.
Local Open Scope Q_scope.

Lemma Qgtb_true (a b : Q) : Qgtb a b = true <-> b < a.
Proof.
  unfold Qgtb. rewrite negb_true_iff. split; intro H.
  - apply Qnot_le_lt. intro L. apply Qle_bool_iff in L. congruence.
  - destruct (Qle_bool a b) eqn:E; [|reflexivity].
    apply Qle_bool_iff in E. exfalso. apply (Qlt_not_le _ _ H E).
Qed.

Lemma Qgtb_false (a b : Q) : Qgtb a b = false <-> a <= b.
Proof.
  unfold Qgtb. rewrite negb_false_iff. apply Qle_bool_iff.
Qed.

Lemma fireOnChange_fields (s : t) :
  score (fireOnChange s) = score s /\ combo (fireOnChange s) = combo s
  /\ maxCombo (fireOnChange s) = maxCombo s
  /\ lastHitTime (fireOnChange s) = lastHitTime s
  /\ listening (fireOnChange s) = listening s.
Proof. unfold fireOnChange. destruct s as [sc c mc l [|] n]; cbn; auto. Qed.

Lemma hit_combo (s : t) (now : Q) (m : option Q) :
  combo (snd (hit s now m)) = comboAfter s now
  /\ hitCombo (fst (hit s now m)) = comboAfter s now
  /\ multiplier (fst (hit s now m)) = multiplierOf (comboAfter s now)
  /\ lastHitTime (snd (hit s now m)) = now.
Proof.
  unfold hit, comboAfter; cbn [fst snd hitCombo multiplier].
  repeat split;
    match goal with
    | |- context [fireOnChange ?u] =>
        destruct (fireOnChange_fields u) as (_ & Hc & _ & Hl & _);
        try rewrite Hc; try rewrite Hl; reflexivity
    | _ => reflexivity
    end.
Qed.

Lemma comboAfter_within (s : t) (now : Q) :
  now - lastHitTime s <= comboTimeout -> comboAfter s now = S (combo s).
Proof.
  intro H. unfold comboAfter. apply Qgtb_false in H. rewrite H. reflexivity.
Qed.

Lemma comboAfter_fresh (s : t) (now : Q) :
  combo s = 0%nat -> comboAfter s now = 1%nat.
Proof.
  intro H. unfold comboAfter. rewrite H.
  destruct (Qgtb _ _ && _); reflexivity.
Qed.

Lemma comboAfter_timeout (s : t) (now : Q) :
  comboTimeout < now - lastHitTime s -> (0 < combo s)%nat ->
  comboAfter s now = 1%nat.
Proof.
  intros H C. unfold comboAfter. apply Qgtb_true in H. rewrite H.
  apply Nat.ltb_lt in C. rewrite C. reflexivity.
Qed.

Lemma comboAfter_le (s : t) (now : Q) : (comboAfter s now <= S (combo s))%nat.
Proof.
  unfold comboAfter. destruct (Qgtb _ _ && _); lia.
Qed.

Lemma multiplierOf_pos (c : nat) : 1 <= multiplierOf c.
Proof.
  unfold multiplierOf.
  repeat match goal with |- context [if ?b then _ else _] => destruct b end;
    unfold Qle; cbn; lia.
Qed.

Lemma Math_round_nonneg (q : Q) : 0 <= q -> (0 <= Math_round q)%Z.
Proof.
  intro H. unfold Math_round.
  change 0%Z with (Qfloor 0). apply Qfloor_resp_le.
  apply Qle_trans with q; [exact H|].
  rewrite <- (Qplus_0_r q) at 1. apply Qplus_le_r. unfold Qle; cbn; lia.
Qed.

Lemma hit_points_nonneg (s : t) (now m : Q) :
  0 <= m -> (0 <= points (fst (hit s now (Some m))))%Z.
Proof.
  intro H. unfold hit; cbn [fst points]. apply Math_round_nonneg.
  apply Qmult_le_0_compat; [|exact H].
  apply Qmult_le_0_compat; [unfold basePoints, Qle; cbn; lia|].
  apply Qle_trans with 1; [unfold Qle; cbn; lia | apply multiplierOf_pos].
Qed.

Lemma hit_score (s : t) (now : Q) (m : option Q) :
  score (snd (hit s now m)) = (score s + points (fst (hit s now m)))%Z.
Proof.
  unfold hit; cbn [fst snd points].
  match goal with
  | |- context [fireOnChange ?u] =>
      destruct (fireOnChange_fields u) as (Hs & _); rewrite Hs
  end.
  reflexivity.
Qed.

Lemma miss_fields (s : t) :
  score (miss s) = score s /\ combo (miss s) = 0%nat
  /\ maxCombo (miss s) = maxCombo s.
Proof.
  unfold miss.
  match goal with
  | |- context [fireOnChange ?u] =>
      destruct (fireOnChange_fields u) as (Hs & Hc & Hm & _);
      rewrite Hs, Hc, Hm
  end.
  auto.
Qed.

Lemma reset_fields (s : t) :
  score (reset s) = 0%Z /\ combo (reset s) = 0%nat
  /\ maxCombo (reset s) = 0%nat /\ lastHitTime (reset s) = 0.
Proof.
  unfold reset.
  match goal with
  | |- context [fireOnChange ?u] =>
      destruct (fireOnChange_fields u) as (Hs & Hc & Hm & Hl & _);
      rewrite Hs, Hc, Hm, Hl
  end.
  auto.
Qed.

Lemma step_score_le (s : t) (c : call) :
  nonNegative c -> (score s <= score (step s c))%Z.
Proof.
  destruct c as [now [m|]|]; cbn [nonNegative step]; intro H.
  - rewrite hit_score. pose proof (hit_points_nonneg s now m H). lia.
  - rewrite hit_score.
    assert (P : (0 <= points (fst (hit s now None)))%Z).
    { change (hit s now None) with (hit s now (Some 1)).
      apply hit_points_nonneg. unfold Qle; cbn; lia. }
    lia.
  - destruct (miss_fields s) as (Hs & _). rewrite Hs. lia.
Qed.

Lemma step_combo_le (s : t) (c : call) :
  (combo (step s c) <= S (combo s))%nat.
Proof.
  destruct c as [now m|]; cbn [step].
  - destruct (hit_combo s now m) as (Hc & _). rewrite Hc. apply comboAfter_le.
  - destruct (miss_fields s) as (_ & Hc & _). rewrite Hc. lia.
Qed.

Lemma run_app (s : t) (xs ys : list call) :
  run s (xs ++ ys) = run (run s xs) ys.
Proof. unfold run. apply fold_left_app. Qed.

Lemma run_score_le (cs : list call) :
  forall s, Forall nonNegative cs -> (score s <= score (run s cs))%Z.
Proof.
  induction cs as [|c cs IH]; intros s H; cbn.
  - lia.
  - inversion H as [|? ? Hc Hcs]; subst.
    pose proof (step_score_le s c Hc). specialize (IH (step s c) Hcs).
    unfold run in IH. lia.
Qed.


(** Claim C6.  From a reset score manager, five hits each at most 2000 ms
    after the one before return the combos 1, 2, 3, 4, 5 and the
    multipliers 1, 1, 1.5, 1.5, 2, whatever their tier multipliers.  The
    multiplier a hit returns is the step function of the combo it leaves
    (>= 20: 5, >= 10: 3, >= 5: 2, >= 3: 1.5, else 1).  A miss always puts
    the combo at 0, and a hit that comes more than 2000 ms after the last
    one while a combo is running returns combo 1. *)
Theorem combo_of_five_hits
    (s0 : ScoreManager.t) (t1 t2 t3 t4 t5 : Q) (m1 m2 m3 m4 m5 : option Q) :
  (t2 - t1 <= 2000)%Q -> (t3 - t2 <= 2000)%Q ->
  (t4 - t3 <= 2000)%Q -> (t5 - t4 <= 2000)%Q ->
  map (fun r => (hitCombo r, multiplier r))
      (hits (reset s0)
            [Hit t1 m1; Hit t2 m2; Hit t3 m3; Hit t4 m4; Hit t5 m5])
  = [(1%nat, 1); (2%nat, 1); (3%nat, 3 # 2); (4%nat, 3 # 2); (5%nat, 2)]
  /\ (forall s now m,
        multiplier (fst (hit s now m))
        = multiplierOf (combo (snd (hit s now m)))
        /\ hitCombo (fst (hit s now m)) = combo (snd (hit s now m)))
  /\ (forall c,
        ((20 <= c)%nat -> multiplierOf c = 5)
        /\ ((10 <= c < 20)%nat -> multiplierOf c = 3)
        /\ ((5 <= c < 10)%nat -> multiplierOf c = 2)
        /\ ((3 <= c < 5)%nat -> multiplierOf c = 3 # 2)
        /\ ((c < 3)%nat -> multiplierOf c = 1))
  /\ (forall s, combo (miss s) = 0%nat)
  /\ (forall s now m,
        (2000 < now - lastHitTime s)%Q -> (0 < combo s)%nat ->
        hitCombo (fst (hit s now m)) = 1%nat
        /\ combo (snd (hit s now m)) = 1%nat).
Proof.
  intros H12 H23 H34 H45.
  assert (step1 : forall s now m, combo s = 0%nat ->
            hitCombo (fst (hit s now m)) = 1%nat
            /\ multiplier (fst (hit s now m)) = multiplierOf 1
            /\ combo (snd (hit s now m)) = 1%nat
            /\ lastHitTime (snd (hit s now m)) = now).
  { intros s now m C. destruct (hit_combo s now m) as (A & B & D & E).
    rewrite (comboAfter_fresh s now C) in *. auto. }
  assert (stepn : forall s now m,
            (now - lastHitTime s <= 2000)%Q ->
            hitCombo (fst (hit s now m)) = S (combo s)
            /\ multiplier (fst (hit s now m)) = multiplierOf (S (combo s))
            /\ combo (snd (hit s now m)) = S (combo s)
            /\ lastHitTime (snd (hit s now m)) = now).
  { intros s now m C. destruct (hit_combo s now m) as (A & B & D & E).
    rewrite (comboAfter_within s now C) in *. auto. }
  split; [|split; [|split; [|split]]].
  - cbn [hits map].
    destruct (reset_fields s0) as (_ & C0 & _).
    destruct (step1 (reset s0) t1 m1 C0) as (A1 & B1 & C1 & L1).
    set (s1 := snd (hit (reset s0) t1 m1)) in *.
    assert (G2 : (t2 - lastHitTime s1 <= 2000)%Q) by (rewrite L1; exact H12).
    destruct (stepn s1 t2 m2 G2) as (A2 & B2 & C2 & L2).
    set (s2 := snd (hit s1 t2 m2)) in *.
    assert (G3 : (t3 - lastHitTime s2 <= 2000)%Q) by (rewrite L2; exact H23).
    destruct (stepn s2 t3 m3 G3) as (A3 & B3 & C3 & L3).
    set (s3 := snd (hit s2 t3 m3)) in *.
    assert (G4 : (t4 - lastHitTime s3 <= 2000)%Q) by (rewrite L3; exact H34).
    destruct (stepn s3 t4 m4 G4) as (A4 & B4 & C4 & L4).
    set (s4 := snd (hit s3 t4 m4)) in *.
    assert (G5 : (t5 - lastHitTime s4 <= 2000)%Q) by (rewrite L4; exact H45).
    destruct (stepn s4 t5 m5 G5) as (A5 & B5 & C5 & L5).
    rewrite A1, B1, A2, B2, A3, B3, A4, B4, A5, B5.
    rewrite C4, C3, C2, C1. reflexivity.
  - intros s now m. destruct (hit_combo s now m) as (A & B & D & _).
    rewrite A, B, D. auto.
  - intro c. unfold multiplierOf.
    destruct (Nat.leb_spec 20 c), (Nat.leb_spec 10 c), (Nat.leb_spec 5 c),
      (Nat.leb_spec 3 c);
      repeat split; intros; try reflexivity; lia.
  - intro s. apply miss_fields.
  - intros s now m T C. destruct (hit_combo s now m) as (A & B & _).
    rewrite A, B. split; apply comboAfter_timeout; assumption.
Qed.

Lemma combo_of_five_hits_witness :
  map (fun r => (hitCombo r, multiplier r))
      (hits (reset ScoreManager.create)
            [Hit 1000 None; Hit 1400 (Some 2); Hit 3400 (Some 5);
             Hit 3500 None; Hit 5000 (Some 1)])
  = [(1%nat, 1); (2%nat, 1); (3%nat, 3 # 2); (4%nat, 3 # 2); (5%nat, 2)].
Proof.
  refine (proj1 (combo_of_five_hits ScoreManager.create 1000 1400 3400 3500 5000
                   None (Some 2) (Some 5) None (Some 1) _ _ _ _));
    unfold Qle; cbn; lia.
Defined.

(** Claim C7, as the code has it.  Over any sequence of hits and misses
    whose tier multipliers are not negative the score never decreases, at
    any point of the sequence; [reset] puts the score at 0; and no call
    raises the combo by more than 1.  The game's own [shoot] passes the
    multipliers 1, 2 and 5 only, and never lowers the score. *)
Theorem score_non_decreasing (s : ScoreManager.t) (before after : list call) :
  Forall nonNegative (before ++ after) ->
  (getScore (run s before) <= getScore (run s (before ++ after)))%Z
  /\ (forall c s', combo (step s' c) <= combo s' + 1)%nat
  /\ (forall s', getScore (reset s') = 0%Z)
  /\ (forall dm sm x y now,
        (getScore sm <= getScore (snd (Main.shoot dm sm x y now)))%Z).
Proof.
  intro H. apply Forall_app in H. destruct H as [_ Ha].
  split; [|split; [|split]].
  - rewrite run_app. unfold getScore. apply run_score_le. exact Ha.
  - intros c s'. pose proof (step_combo_le s' c). lia.
  - intro s'. apply reset_fields.
  - intros dm sm x y now. unfold Main.shoot, getScore.
    destruct (DiscManager.checkHit dm x y) as [[h|] dm']; cbn [snd].
    + apply (step_score_le sm (Hit now (Some (Main.TIER_SCORE (DiscManager.hitTier h))))).
      cbn [nonNegative]. destruct (DiscManager.hitTier h); unfold Qle; cbn; lia.
    + apply (step_score_le sm Miss). exact I.
Qed.

Lemma score_non_decreasing_witness :
  Z.le (getScore (run (reset ScoreManager.create) [Hit 1000 (Some 5); Miss]))
       (getScore (run (reset ScoreManager.create)
                      ([Hit 1000 (Some 5); Miss]
                         ++ [Hit 1200 None; Hit 1300 (Some 2)]))).
Proof.
  refine (proj1 (score_non_decreasing (reset ScoreManager.create)
                   [Hit 1000 (Some 5); Miss]
                   [Hit 1200 None; Hit 1300 (Some 2)] _)).
  cbn [app].
  repeat (apply Forall_cons; [cbn [nonNegative] | ]); try apply Forall_nil;
    try exact I; unfold Qle; cbn; lia.
Defined.

(** Claim C7 as stated fails: a hit with tier multiplier -1 awards
    [Math.round(100 * 1 * -1) = -100] points, and the score drops from 0
    to -100. *)
Lemma score_decreases_on_negative_multiplier :
  getScore (reset ScoreManager.create) = 0%Z
  /\ getScore (run (reset ScoreManager.create) [Hit 1000 (Some (-1))]) = (-100)%Z
  /\ ~ (forall (s : ScoreManager.t) (cs : list call),
          (getScore s <= getScore (run s cs))%Z).
Proof.
  split; [reflexivity|]. split; [reflexivity|].
  intro H.
  specialize (H (reset ScoreManager.create) [Hit 1000 (Some (-1))]).
  revert H. vm_compute. intro H. apply H. reflexivity.
Qed.

End ScoreManagerFacts.

(** ** Real comparisons *)

Module JSFacts.
Import JS.
Local Open Scope R_scope.

Lemma Rltb_true (a b : R) : Rltb a b = true <-> a < b.
Proof. unfold Rltb. destruct (Rlt_dec a b); split; intros; auto; discriminate. Qed.

Lemma Rltb_false (a b : R) : Rltb a b = false <-> b <= a.
Proof.
  unfold Rltb. destruct (Rlt_dec a b); split; intros; try discriminate; auto; lra.
Qed.

Lemma Rleb_true (a b : R) : Rleb a b = true <-> a <= b.
Proof. unfold Rleb. destruct (Rle_dec a b); split; intros; auto; discriminate. Qed.

Lemma Rleb_false (a b : R) : Rleb a b = false <-> b < a.
Proof.
  unfold Rleb. destruct (Rle_dec a b); split; intros; try discriminate; auto; lra.
Qed.

End JSFacts.

(** ** DiscManager: population and hit test *)

Module DiscManagerFacts.
Import JS JSFacts DiscManager.
Local Open Scope R_scope.

(** *** Spawning *)

Lemma spawnTrophy_spec (st : t) :
  exists tr,
    trophies (spawnTrophy st) = trophies st ++ [tr]
    /\ alive tr = true
    /\ id tr = nextId st
    /\ radius tr = TIER_HIT_RADIUS (tier tr)
    /\ fragments (spawnTrophy st) = fragments st
    /\ elapsedTime (spawnTrophy st) = elapsedTime st
    /\ nextId (spawnTrophy st) = S (nextId st).
Proof.
  unfold spawnTrophy. eexists. cbn. repeat split.
Qed.

Lemma spawnTimes_spec (n : nat) :
  forall st, exists new,
    trophies (spawnTimes n st) = trophies st ++ new
    /\ length new = n
    /\ Forall (fun tr => alive tr = true) new
    /\ fragments (spawnTimes n st) = fragments st
    /\ elapsedTime (spawnTimes n st) = elapsedTime st.
Proof.
  induction n as [|n IH]; intro st; cbn [spawnTimes].
  - exists []. rewrite app_nil_r. repeat split. constructor.
  - destruct (spawnTrophy_spec st) as (tr & T & A & _ & _ & F & E & _).
    destruct (IH (spawnTrophy st)) as (new & T' & L & A' & F' & E').
    exists (tr :: new). rewrite T', T, <- app_assoc. cbn.
    repeat split; try congruence. constructor; assumption.
Qed.

Lemma replenish_spec (st : t) :
  exists new,
    trophies (replenish st) = trophies st ++ new
    /\ Forall (fun tr => alive tr = true) new
    /\ length (trophies (replenish st))
       = Nat.max (length (trophies st)) TARGET_COUNT
    /\ fragments (replenish st) = fragments st
    /\ elapsedTime (replenish st) = elapsedTime st.
Proof.
  functional induction (replenish st) as [st Lt IH | st Ge].
  - destruct IH as (new & T & A & L & F & E).
    destruct (spawnTrophy_spec st) as (tr & T0 & A0 & _ & _ & F0 & E0 & _).
    apply Nat.ltb_lt in Lt.
    exists (tr :: new). split; [|split; [|split; [|split]]].
    + rewrite T, T0, <- app_assoc. reflexivity.
    + constructor; assumption.
    + rewrite L, T0, length_app. cbn [length]. unfold TARGET_COUNT in *. lia.
    + congruence.
    + congruence.
  - exists []. rewrite app_nil_r. apply Nat.ltb_ge in Ge.
    repeat split; [constructor | lia].
Qed.

Lemma filter_alive_all (ts : list Trophy) :
  Forall (fun tr => alive tr = true) (filter alive ts).
Proof.
  apply Forall_forall. intros tr H. apply filter_In in H. tauto.
Qed.

Lemma filter_all (ts : list Trophy) :
  Forall (fun tr => alive tr = true) ts -> filter alive ts = ts.
Proof.
  induction 1 as [|tr ts A _ IH]; cbn; [reflexivity|]. rewrite A, IH. reflexivity.
Qed.

Lemma update_spec (st : t) (dt : R) :
  Forall (fun tr => alive tr = true) (trophies (update st dt))
  /\ length (trophies (update st dt))
     = Nat.max
         (length (filter alive
                    (map (moveTrophy (width st) (height st) dt) (trophies st))))
         TARGET_COUNT
  /\ elapsedTime (update st dt) = elapsedTime st + dt
  /\ fragments (update st dt) = updateFragments dt (fragments st).
Proof.
  unfold update.
  match goal with
  | |- context [replenish ?u] =>
      destruct (replenish_spec u) as (new & T & A & L & F & E);
      rewrite T, F, E; rewrite T in L; rewrite L
  end.
  cbn [trophies fragments elapsedTime].
  repeat split. apply Forall_app. split; [apply filter_alive_all | exact A].
Qed.

Lemma update_population (st : t) (dt : R) :
  (length (trophies st) <= TARGET_COUNT)%nat ->
  length (trophies (update st dt)) = TARGET_COUNT
  /\ liveCount (update st dt) = TARGET_COUNT.
Proof.
  intro H. destruct (update_spec st dt) as (A & L & _).
  assert (B : (length (filter alive
                 (map (moveTrophy (width st) (height st) dt) (trophies st)))
               <= TARGET_COUNT)%nat).
  { eapply Nat.le_trans; [apply filter_length_le|]. rewrite length_map. exact H. }
  unfold liveCount. rewrite (filter_all _ A), L. lia.
Qed.

Lemma killAt_length (ts : list Trophy) :
  forall i, length (killAt i ts) = length ts.
Proof.
  induction ts as [|tr ts IH]; intros [|i]; cbn; auto.
Qed.

Lemma checkHit_length (st : t) (x y : R) :
  length (trophies (snd (checkHit st x y))) = length (trophies st).
Proof.
  unfold checkHit. destruct (scanHit _ _ _ _ _ _) as [[i c]|]; cbn; [|reflexivity].
  apply killAt_length.
Qed.

Lemma step_population (st : t) (c : call) :
  length (trophies st) = TARGET_COUNT ->
  length (trophies (step st c)) = TARGET_COUNT.
Proof.
  intro H. destruct c; cbn [step].
  - apply update_population. lia.
  - rewrite checkHit_length. exact H.
  - exact H.
Qed.

Lemma run_population (cs : list call) :
  forall st, length (trophies st) = TARGET_COUNT ->
             length (trophies (run st cs)) = TARGET_COUNT.
Proof.
  induction cs as [|c cs IH]; intros st H; cbn; [exact H|].
  apply IH. apply step_population. exact H.
Qed.

Lemma start_fresh (w h : R) (rnd : nat -> R) :
  length (trophies (start (create w h rnd))) = TARGET_COUNT
  /\ liveCount (start (create w h rnd)) = TARGET_COUNT.
Proof.
  unfold start. destruct (spawnTimes_spec TARGET_COUNT (create w h rnd))
    as (new & T & L & A & _).
  unfold liveCount. rewrite T. cbn [create trophies app].
  rewrite (filter_all _ A). auto.
Qed.

(** Claim C4.  After one [start()] on a new disc manager and any sequence
    of updates, hit tests and resizes, the array holds exactly 4 trophies,
    so at most 4 of them are live; and every update leaves exactly 4 live
    ones.  The replenishing loop spawns while fewer than 4 are left and
    does nothing otherwise. *)
Theorem population_bound (w h : R) (rnd : nat -> R) (cs : list call) :
  let st := run (start (create w h rnd)) cs in
  (liveCount st <= TARGET_COUNT)%nat
  /\ length (trophies st) = TARGET_COUNT
  /\ liveCount (start (create w h rnd)) = 4%nat
  /\ (forall dt, liveCount (update st dt) = 4%nat)
  /\ (forall s, (TARGET_COUNT <= length (trophies s))%nat -> replenish s = s)
  /\ (forall s, (length (trophies s) < TARGET_COUNT)%nat ->
                replenish s = replenish (spawnTrophy s)).
Proof.
  intro st.
  assert (L : length (trophies st) = TARGET_COUNT).
  { apply run_population. apply start_fresh. }
  split; [|split; [exact L|split; [apply start_fresh|split; [|split]]]].
  - unfold liveCount. rewrite <- L. apply filter_length_le.
  - intro dt. apply update_population. lia.
  - intros s H. rewrite replenish_equation.
    apply Nat.ltb_ge in H. rewrite H. reflexivity.
  - intros s H. rewrite replenish_equation.
    apply Nat.ltb_lt in H. rewrite H. reflexivity.
Qed.

(** *** Restart *)

Lemma speedBonus_of_elapsed (st : t) (n : Z) :
  elapsedTime st = IZR n * 30 -> (0 <= n <= 5)%Z ->
  getSpeedBonus st = IZR n * 15.
Proof.
  intros E B. unfold getSpeedBonus, Math_floor, SPEED_RAMP_INTERVAL,
    SPEED_RAMP_AMOUNT, SPEED_RAMP_MAX.
  rewrite E. replace (IZR n * 30 / 30) with (IZR n) by (field; lra).
  rewrite ZfloorZ. apply Rmin_left.
  destruct B as [_ B]. apply IZR_le in B. lra.
Qed.

(** Claim C5, as the code has it.  [start()] clears nothing: it appends 4
    new live trophies to those the array holds and leaves the fragments as
    they are.  [dispose()], which the host calls when a round is
    restarted, empties the trophies and the fragments; a [start()] after
    it leaves exactly 4 trophies, all live, and no fragment. *)
Theorem start_appends_dispose_clears (st : DiscManager.t) :
  (exists new,
      trophies (start st) = trophies st ++ new
      /\ length new = 4%nat
      /\ Forall (fun tr => alive tr = true) new)
  /\ fragments (start st) = fragments st
  /\ trophies (dispose st) = []
  /\ fragments (dispose st) = []
  /\ length (trophies (start (dispose st))) = 4%nat
  /\ liveCount (start (dispose st)) = 4%nat
  /\ fragments (start (dispose st)) = [].
Proof.
  unfold start.
  destruct (spawnTimes_spec TARGET_COUNT st) as (new & T & L & A & F & _).
  destruct (spawnTimes_spec TARGET_COUNT (dispose st))
    as (new' & T' & L' & A' & F' & _).
  cbn [dispose trophies fragments app] in T', F'.
  split; [exists new; auto|].
  split; [exact F|]. split; [reflexivity|]. split; [reflexivity|].
  unfold liveCount. rewrite T', F', (filter_all _ A'). auto.
Qed.

Lemma start_live (s : t) :
  Forall (fun tr => alive tr = true) (trophies s) ->
  liveCount (start s) = (length (trophies s) + 4)%nat
  /\ length (trophies (start s)) = (length (trophies s) + 4)%nat
  /\ Forall (fun tr => alive tr = true) (trophies (start s)).
Proof.
  intro A. unfold start, liveCount.
  destruct (spawnTimes_spec TARGET_COUNT s) as (new & T & L & A' & _).
  assert (B : Forall (fun tr => alive tr = true) (trophies s ++ new))
    by (apply Forall_app; auto).
  rewrite T, (filter_all _ B), length_app, L. auto.
Qed.

Lemma start_elapsed (s : t) : elapsedTime (start s) = elapsedTime s.
Proof.
  unfold start.
  destruct (spawnTimes_spec TARGET_COUNT s) as (new & _ & _ & _ & _ & E).
  exact E.
Qed.

Lemma dispose_elapsed (s : t) : elapsedTime (dispose s) = elapsedTime s.
Proof. reflexivity. Qed.

Lemma start_twice (s : t) :
  trophies s = [] ->
  liveCount (start s) = 4%nat /\ liveCount (start (start s)) = 8%nat.
Proof.
  intro E.
  assert (A0 : Forall (fun tr => alive tr = true) (trophies s))
    by (rewrite E; constructor).
  destruct (start_live s A0) as (L1 & N1 & A1).
  destruct (start_live (start s) A1) as (L2 & _).
  rewrite L1, L2, N1, E. split; reflexivity.
Qed.

Lemma speedBonus_carried_over (s : t) :
  elapsedTime s = 0 ->
  getSpeedBonus (start s) = 0
  /\ getSpeedBonus (start (dispose (update (start s) 30))) = 15.
Proof.
  intro E. split.
  - rewrite (speedBonus_of_elapsed (start s) 0); [lra | | lia].
    rewrite start_elapsed, E. lra.
  - rewrite (speedBonus_of_elapsed _ 1); [lra | | lia].
    rewrite start_elapsed, dispose_elapsed.
    destruct (update_spec (start s) 30) as (_ & _ & U & _).
    rewrite U, start_elapsed, E. lra.
Qed.

(** Claim C5 as stated fails.  A second [start()] on a started disc
    manager leaves 8 live trophies, not 4; and after 30 seconds of play,
    [dispose()] and [start()] leave the speed bonus at 15, where a new
    disc manager has 0. *)
Lemma start_keeps_previous_round :
  liveCount (start (create 800 600 (fun _ => 0))) = 4%nat
  /\ liveCount (start (start (create 800 600 (fun _ => 0)))) = 8%nat
  /\ getSpeedBonus (start (create 800 600 (fun _ => 0))) = 0
  /\ getSpeedBonus
       (start (dispose (update (start (create 800 600 (fun _ => 0))) 30)))
     = 15.
Proof.
  pose proof (start_twice (create 800 600 (fun _ => 0)) eq_refl) as [A B].
  pose proof (speedBonus_carried_over (create 800 600 (fun _ => 0)) eq_refl)
    as [C D].
  repeat split; assumption.
Qed.

(** *** Hit test *)

Lemma not_inRange_dead (x y : R) (tr : Trophy) :
  alive tr = false -> ~ inRange x y tr.
Proof. intros D [A _]. congruence. Qed.

Lemma scanHit_scanned (x y : R) (ts : list Trophy) :
  forall seen closest cd,
    scanned x y seen closest cd ->
    exists cd',
      scanned x y (seen ++ ts) (scanHit x y ts (length seen) closest cd) cd'.
Proof.
  induction ts as [|trophy rest IH]; intros seen closest cd S; cbn [scanHit].
  - exists cd. rewrite app_nil_r. exact S.
  - assert (Next : forall closest' cd',
              scanned x y (seen ++ [trophy]) closest' cd' ->
              exists cd'',
                scanned x y (seen ++ trophy :: rest)
                        (scanHit x y rest (Datatypes.S (length seen)) closest' cd')
                        cd'').
    { intros closest' cd' S'.
      destruct (IH (seen ++ [trophy]) closest' cd' S') as (cd'' & R).
      exists cd''. rewrite <- app_assoc, length_app in R. cbn [length app] in R.
      rewrite Nat.add_1_r in R. exact R. }
    assert (Keep : ~ inRange x y trophy
                   \/ (exists j c, closest = Some (j, c)
                                   /\ distTo x y c <= distTo x y trophy) ->
                   scanned x y (seen ++ [trophy]) closest cd).
    { intro K. unfold scanned in *. destruct closest as [[j c]|].
      - destruct S as (E & N & I & Le & Lt).
        assert (J : (j < length seen)%nat)
          by (apply nth_error_Some; congruence).
        split; [exact E|]. split; [rewrite nth_error_app1; assumption|].
        split; [exact I|]. split.
        + intros tr H Ir. apply in_app_or in H. destruct H as [H|[H|[]]].
          * apply Le; assumption.
          * subst tr. destruct K as [K|(j' & c' & Eq & K)]; [tauto|].
            inversion Eq; subst. exact K.
        + intros k tr Hk Nk Ir. apply Lt with k; try assumption.
          rewrite nth_error_app1 in Nk; [exact Nk | lia].
      - destruct S as (E & N). split; [exact E|].
        intros tr H. apply in_app_or in H. destruct H as [H|[H|[]]].
        + apply N; assumption.
        + subst tr. destruct K as [K|(j' & c' & Eq & _)]; [exact K|discriminate]. }
    destruct (alive trophy) eqn:A; cbn [negb].
    + fold (distTo x y trophy).
      destruct (Rltb (distTo x y trophy) (radius trophy)) eqn:Rg; cbn [andb].
      * destruct (ltExt (distTo x y trophy) cd) eqn:Cl.
        -- apply Next. apply Rltb_true in Rg.
           assert (I : inRange x y trophy) by (split; assumption).
           unfold scanned in *.
           split; [reflexivity|].
           split; [rewrite nth_error_app2, Nat.sub_diag; [reflexivity|lia]|].
           split; [exact I|].
           destruct closest as [[j c]|].
           ++ destruct S as (E & N & Ic & Le & Lt). subst cd.
              cbn [ltExt] in Cl. apply Rltb_true in Cl. split.
              ** intros tr H Ir. apply in_app_or in H.
                 destruct H as [H|[H|[]]].
                 --- specialize (Le tr H Ir). lra.
                 --- subst tr. lra.
              ** intros k tr Hk Nk Ir.
                 rewrite nth_error_app1 in Nk by exact Hk.
                 apply nth_error_In in Nk. specialize (Le tr Nk Ir). lra.
           ++ destruct S as (E & N). split.
              ** intros tr H Ir. apply in_app_or in H.
                 destruct H as [H|[H|[]]].
                 --- exfalso. apply (N tr H Ir).
                 --- subst tr. lra.
              ** intros k tr Hk Nk Ir.
                 rewrite nth_error_app1 in Nk by exact Hk.
                 apply nth_error_In in Nk. exfalso. apply (N tr Nk Ir).
        -- apply Next, Keep. right.
           unfold scanned in S. destruct closest as [[j c]|].
           ++ destruct S as (E & _). subst cd. cbn [ltExt] in Cl.
              apply Rltb_false in Cl. exists j, c. auto.
           ++ destruct S as (E & _). subst cd. discriminate.
      * apply Next, Keep. left. intros [_ I]. apply Rltb_false in Rg. lra.
    + apply Next, Keep. left. apply not_inRange_dead. exact A.
Qed.

Lemma killAt_spec (ts : list Trophy) :
  forall i tr,
    nth_error ts i = Some tr ->
    nth_error (killAt i ts) i = Some (removeTrophy tr)
    /\ forall k, k <> i -> nth_error (killAt i ts) k = nth_error ts k.
Proof.
  induction ts as [|t0 ts IH]; intros [|i] tr H; cbn in H; try discriminate.
  - inversion H; subst. cbn. split; [reflexivity|].
    intros [|k] K; [congruence | reflexivity].
  - destruct (IH i tr H) as [A B]. cbn. split; [exact A|].
    intros [|k] K; [reflexivity|]. cbn. apply B. congruence.
Qed.

(** Every trophy a started disc manager holds has the radius of its tier. *)
Lemma spawnTrophy_tierRadius (st : t) :
  Forall tierRadius (trophies st) ->
  Forall tierRadius (trophies (spawnTrophy st)).
Proof.
  intro H. destruct (spawnTrophy_spec st) as (tr & T & _ & _ & R & _).
  rewrite T. apply Forall_app. split; [exact H|]. constructor; [exact R|constructor].
Qed.

Lemma spawnTimes_tierRadius (n : nat) :
  forall st, Forall tierRadius (trophies st) ->
             Forall tierRadius (trophies (spawnTimes n st)).
Proof.
  induction n as [|n IH]; intros st H; cbn [spawnTimes]; [exact H|].
  apply IH, spawnTrophy_tierRadius, H.
Qed.

Lemma replenish_tierRadius (st : t) :
  Forall tierRadius (trophies st) ->
  Forall tierRadius (trophies (replenish st)).
Proof.
  functional induction (replenish st) as [st Lt IH | st Ge]; intro H.
  - apply IH, spawnTrophy_tierRadius, H.
  - exact H.
Qed.

Lemma moveTrophy_tierRadius (w h dt : R) (tr : Trophy) :
  tierRadius tr -> tierRadius (moveTrophy w h dt tr).
Proof.
  unfold tierRadius, moveTrophy. intro H.
  destruct (negb (alive tr)); [exact H|].
  match goal with |- context [if ?b then _ else _] => destruct b end;
    exact H.
Qed.

Lemma killAt_tierRadius (ts : list Trophy) :
  forall i, Forall tierRadius ts -> Forall tierRadius (killAt i ts).
Proof.
  induction ts as [|tr ts IH]; intros i H; destruct i; cbn [killAt];
    try constructor; inversion H; subst; auto.
Qed.

Lemma step_tierRadius (st : t) (c : call) :
  Forall tierRadius (trophies st) -> Forall tierRadius (trophies (step st c)).
Proof.
  intro H. destruct c as [dt|x y|w h]; cbn [step].
  - unfold update. apply replenish_tierRadius. cbn [trophies].
    apply Forall_forall. intros tr I. apply filter_In in I. destruct I as [I _].
    apply in_map_iff in I. destruct I as (tr0 & E & I). subst tr.
    apply moveTrophy_tierRadius. rewrite Forall_forall in H. apply H, I.
  - unfold checkHit. destruct (scanHit _ _ _ _ _ _) as [[i c]|]; cbn [snd].
    + unfold shatterTrophy; cbn [trophies]. apply killAt_tierRadius, H.
    + exact H.
  - exact H.
Qed.

Lemma run_tierRadius (cs : list call) :
  forall st, Forall tierRadius (trophies st) ->
             Forall tierRadius (trophies (run st cs)).
Proof.
  induction cs as [|c cs IH]; intros st H; cbn; [exact H|].
  apply IH, step_tierRadius, H.
Qed.

Lemma sqrt_on_axis (d : R) : sqrt (d * d + (0 - 0) * (0 - 0)) = Rabs d.
Proof.
  replace (d * d + (0 - 0) * (0 - 0)) with (Rsqr d) by (unfold Rsqr; ring).
  apply sqrt_Rsqr_abs.
Qed.

(** The hit test on the two overlapping trophies: at (60,0), inside both
    circles, the silver trophy at distance 40 wins over the bronze one at
    distance 60 that comes first in the array; at (45,0) the bronze one
    wins; at (500,0) nothing is hit. *)
Example checkHit_overlapping :
  fst (checkHit overlapping 60 0) = Some (mkHit 100 0 silver)
  /\ fst (checkHit overlapping 45 0) = Some (mkHit 0 0 bronze)
  /\ checkHit overlapping 500 0 = (None, overlapping).
Proof.
  assert (Lt : forall a b, a < b -> Rltb a b = true)
    by (intros a b H; apply Rltb_true; exact H).
  assert (Ge : forall a b, b <= a -> Rltb a b = false)
    by (intros a b H; apply Rltb_false; exact H).
  assert (Pos : forall d, 0 <= d -> Rabs d = d)
    by (intros d H; apply Rabs_pos_eq; exact H).
  assert (Neg : forall d, d <= 0 -> Rabs d = - d)
    by (intros d H; apply Rabs_left1; exact H).
  unfold checkHit, overlapping.
  cbn [trophies scanHit alive negb screenX screenY radius].
  rewrite !sqrt_on_axis.
  rewrite (Pos (60 - 0)), (Neg (60 - 100)), (Pos (45 - 0)), (Neg (45 - 100)),
    (Pos (500 - 0)), (Pos (500 - 100)) by lra.
  cbn [ltExt andb].
  rewrite (Lt (60 - 0) 90), (Lt (- (60 - 100)) 80),
    (Lt (45 - 0) 90), (Lt (- (45 - 100)) 80),
    (Ge (500 - 0) 90), (Ge (500 - 100) 80) by lra.
  cbn [ltExt andb].
  rewrite (Lt (- (60 - 100)) (60 - 0)), (Ge (- (45 - 100)) (45 - 0)) by lra.
  cbn [fst tier screenX screenY]. repeat split.
Qed.

(** Claim C3.  [checkHit] always returns.  When it returns a hit, the hit
    is the position and tier of a live trophy whose distance to the query
    point is below its own hit radius, no other such trophy is closer
    (those before it in the array are strictly farther), and that trophy,
    and only it, is shattered: marked dead, with its 8, 10 or 12
    fragments added.  It returns [null], changing nothing, exactly when
    no live trophy is within its radius.  The radius of every trophy of a
    started disc manager is the one of its tier (bronze 90, silver 80,
    gold 65). *)
Theorem checkHit_closest (st : DiscManager.t) (x y : R) :
  match fst (checkHit st x y) with
  | Some h =>
      exists i tr,
        nth_error (trophies st) i = Some tr
        /\ inRange x y tr
        /\ h = mkHit (screenX tr) (screenY tr) (tier tr)
        /\ (forall tr', In tr' (trophies st) -> inRange x y tr' ->
                        distTo x y tr <= distTo x y tr')
        /\ (forall k tr', (k < i)%nat -> nth_error (trophies st) k = Some tr' ->
                          inRange x y tr' -> distTo x y tr < distTo x y tr')
        /\ nth_error (trophies (snd (checkHit st x y))) i
           = Some (removeTrophy tr)
        /\ (forall k, k <> i ->
                      nth_error (trophies (snd (checkHit st x y))) k
                      = nth_error (trophies st) k)
        /\ length (fragments (snd (checkHit st x y)))
           = (length (fragments st) + fragCountOf (tier tr))%nat
  | None =>
      (forall tr, In tr (trophies st) -> ~ inRange x y tr)
      /\ snd (checkHit st x y) = st
  end
  /\ (fst (checkHit st x y) = None
      <-> forall tr, In tr (trophies st) -> ~ inRange x y tr)
  /\ (forall w h rnd cs tr,
        In tr (trophies (run (start (create w h rnd)) cs)) ->
        radius tr = TIER_HIT_RADIUS (tier tr)).
Proof.
  assert (Radii : forall w h rnd cs tr,
            In tr (trophies (run (start (create w h rnd)) cs)) ->
            radius tr = TIER_HIT_RADIUS (tier tr)).
  { intros w h rnd cs.
    assert (F : Forall tierRadius (trophies (run (start (create w h rnd)) cs))).
    { apply run_tierRadius. unfold start. apply spawnTimes_tierRadius.
      constructor. }
    rewrite Forall_forall in F. exact F. }
  match goal with
  | |- ?A /\ ?B /\ _ =>
      enough (Main : A /\ B)
        by (destruct Main as [M1 M2];
            split; [exact M1 | split; [exact M2 | exact Radii]])
  end.
  clear Radii.
  assert (S0 : scanned x y [] None Infinity).
  { split; [reflexivity|]. intros tr []. }
  destruct (scanHit_scanned x y (trophies st) [] None Infinity S0) as (cd & S).
  cbn [app length] in S. unfold checkHit.
  destruct (scanHit x y (trophies st) 0 None Infinity) as [[i c]|];
    cbn [fst snd]; unfold scanned in S.
  - destruct S as (_ & N & I & Le & Lt). split.
    + exists i, c. destruct (killAt_spec (trophies st) i c N) as [K1 K2].
      repeat split; try assumption; try apply I.
      unfold shatterTrophy; cbn [fragments]. rewrite length_app. f_equal.
      generalize (screenToWorld st (screenX c) (screenY c)) as p.
      generalize (fragCountOf (tier c)) at 1 as total.
      generalize (rand st) as rnd. generalize (drawn st) as from.
      generalize 0%nat as j.
      induction (fragCountOf (tier c)) as [|n IH]; intros;
        cbn [newFragments length]; auto.
    + split; [discriminate|]. intro H. exfalso.
      apply (H c); [eapply nth_error_In; exact N | exact I].
  - destruct S as (_ & N). repeat split; auto.
Qed.

End DiscManagerFacts.

(** ** GameManager: the round state machine *)

Module GameManagerFacts.
Import GameManager.
Local Open Scope Q_scope.

Lemma isPlaying_true (g : t) : isPlaying g = true <-> state g = PLAYING.
Proof. unfold isPlaying. destruct (state g); split; congruence. Qed.

Lemma isPlaying_false (g : t) : isPlaying g = false <-> state g <> PLAYING.
Proof. unfold isPlaying. destruct (state g); split; congruence. Qed.

Lemma update_expired (g : t) (dt : Q) :
  state g = PLAYING -> timeRemaining g - dt <= 0 ->
  update g dt
  = mk GAME_OVER 0 (scoreManager g) (discManager g) (onGameOver g)
       (if onGameOver g then S (gameOverFired g) else gameOverFired g).
Proof.
  intros P E. unfold update. apply isPlaying_true in P. rewrite P. cbn [negb].
  apply Qle_bool_iff in E. rewrite E.
  unfold endGame, isPlaying in *. cbn [state]. destruct (state g); try discriminate.
  reflexivity.
Qed.

Lemma update_running (g : t) (dt : Q) :
  state g = PLAYING -> 0 < timeRemaining g - dt ->
  update g dt
  = mk PLAYING (timeRemaining g - dt) (scoreManager g) (discManager g)
       (onGameOver g) (gameOverFired g).
Proof.
  intros P E. unfold update. rewrite (proj2 (isPlaying_true g) P). cbn [negb].
  destruct (Qle_bool (timeRemaining g - dt) 0) eqn:B.
  - apply Qle_bool_iff in B. exfalso. apply (Qlt_not_le _ _ E B).
  - rewrite P. reflexivity.
Qed.

Lemma update_not_playing (g : t) (dt : Q) :
  state g <> PLAYING -> update g dt = g.
Proof.
  intro P. unfold update. rewrite (proj2 (isPlaying_false g) P). reflexivity.
Qed.

(** Claim C8.  While playing with 60 seconds left, [update(70)] ends the
    round with the timer at exactly 0; more generally an update that
    uses up the time left clamps the timer to 0 and ends the round, and
    one that does not just decrements it.  [update] changes nothing in
    the idle and game-over states, and no call takes the idle state
    straight to game over. *)
Theorem round_timer (g : GameManager.t) :
  state g = PLAYING -> timeRemaining g == 60 ->
  (getState (update g 70) = GAME_OVER /\ getTimeRemaining (update g 70) = 0)
  /\ (forall g' dt, state g' = PLAYING -> timeRemaining g' - dt <= 0 ->
        getState (update g' dt) = GAME_OVER
        /\ getTimeRemaining (update g' dt) = 0)
  /\ (forall g' dt, state g' = PLAYING -> 0 < timeRemaining g' - dt ->
        getState (update g' dt) = PLAYING
        /\ getTimeRemaining (update g' dt) = timeRemaining g' - dt)
  /\ (forall g' dt, state g' = IDLE \/ state g' = GAME_OVER ->
        update g' dt = g')
  /\ (forall g' c, state g' = IDLE -> getState (step g' c) <> GAME_OVER).
Proof.
  intros P T.
  assert (Expired : forall g' dt, state g' = PLAYING ->
            timeRemaining g' - dt <= 0 ->
            getState (update g' dt) = GAME_OVER
            /\ getTimeRemaining (update g' dt) = 0).
  { intros g' dt P' E. rewrite (update_expired g' dt P' E). split; reflexivity. }
  split; [|split; [exact Expired|split; [|split]]].
  - apply Expired; [exact P|]. rewrite T. unfold Qle; cbn; lia.
  - intros g' dt P' E. rewrite (update_running g' dt P' E). split; reflexivity.
  - intros g' dt [I|O]; apply update_not_playing; congruence.
  - intros g' c I. unfold getState.
    destruct c; cbn [step].
    + unfold startGame, isPlaying. rewrite I. cbn. discriminate.
    + rewrite update_not_playing; congruence.
    + unfold endGame, isPlaying. rewrite I. cbn. congruence.
    + cbn. discriminate.
    + cbn. congruence.
Qed.

Lemma round_timer_witness :
  let g := startGame (create ScoreManager.create
                             (DiscManager.create 800 600 (fun _ => 0%R))) in
  getState (update g 70) = GAME_OVER /\ getTimeRemaining (update g 70) = 0.
Proof.
  intro g.
  refine (proj1 (round_timer g _ _)).
  - reflexivity.
  - reflexivity.
Defined.

(** Claim C10.  In the game-over state [startGame] goes straight to
    playing: the timer is set to 60, the score manager is reset and the
    disc manager started, in that one call.  Starting the disc manager
    puts 4 new live trophies behind the ones it holds: the call leaves 4
    more live trophies than it found, and the fragments as they were.
    The guard returns without any change exactly when the state is
    already playing; from any other state the call ends in the playing
    state. *)
Theorem startGame_from_game_over (g : GameManager.t) :
  state g = GAME_OVER ->
  startGame g
  = mk PLAYING 60 (ScoreManager.reset (scoreManager g))
       (DiscManager.start (discManager g)) (onGameOver g) (gameOverFired g)
  /\ ScoreManager.getScore (scoreManager (startGame g)) = 0%Z
  /\ ScoreManager.getCombo (scoreManager (startGame g)) = 0%nat
  /\ (exists new,
        DiscManager.trophies (discManager (startGame g))
        = DiscManager.trophies (discManager g) ++ new
        /\ length new = 4%nat
        /\ Forall (fun tr => DiscManager.alive tr = true) new)
  /\ DiscManager.liveCount (discManager (startGame g))
     = (DiscManager.liveCount (discManager g) + 4)%nat
  /\ DiscManager.fragments (discManager (startGame g))
     = DiscManager.fragments (discManager g)
  /\ (forall g', state g' = PLAYING -> startGame g' = g')
  /\ (forall g', state g' <> PLAYING ->
        getState (startGame g') = PLAYING
        /\ getTimeRemaining (startGame g') = 60
        /\ startGame g' <> g').
Proof.
  intro O.
  assert (E : startGame g
              = mk PLAYING 60 (ScoreManager.reset (scoreManager g))
                   (DiscManager.start (discManager g)) (onGameOver g)
                   (gameOverFired g)).
  { unfold startGame, isPlaying. rewrite O. reflexivity. }
  split; [exact E|]. rewrite E. cbn [scoreManager discManager].
  split; [apply ScoreManagerFacts.reset_fields|].
  split; [apply ScoreManagerFacts.reset_fields|].
  destruct (DiscManagerFacts.spawnTimes_spec DiscManager.TARGET_COUNT
              (discManager g)) as (new & T & L & A & F & _).
  fold (DiscManager.start (discManager g)) in T, F.
  split; [exists new; auto|].
  split.
  { unfold DiscManager.liveCount.
    rewrite T, filter_app, length_app, (DiscManagerFacts.filter_all _ A), L.
    reflexivity. }
  split; [exact F|].
  split.
  - intros g' P. unfold startGame. rewrite (proj2 (isPlaying_true g') P).
    reflexivity.
  - intros g' P. unfold startGame. rewrite (proj2 (isPlaying_false g') P).
    repeat split. intro C. apply P. rewrite <- C. reflexivity.
Qed.

Lemma startGame_from_game_over_witness :
  let g := update (startGame (create ScoreManager.create
                                     (DiscManager.create 800 600 (fun _ => 0%R))))
                  70 in
  getState g = GAME_OVER /\ getState (startGame g) = PLAYING
  /\ getTimeRemaining (startGame g) = 60
  /\ DiscManager.liveCount (discManager g) = 4%nat
  /\ DiscManager.liveCount (discManager (startGame g)) = 8%nat.
Proof.
  intro g.
  assert (O : state g = GAME_OVER) by reflexivity.
  assert (D : DiscManager.liveCount (discManager g) = 4%nat)
    by apply DiscManagerFacts.start_fresh.
  split; [exact O|].
  destruct (startGame_from_game_over g O) as (E & _ & _ & _ & N & _).
  rewrite N, D. rewrite E. repeat split.
Defined.

End GameManagerFacts.

(** ** ShootingSystem: aim assist *)

Module ShootingSystemFacts.
Import JS JSFacts ShootingSystem.
Local Open Scope R_scope.

Lemma distance_nonneg (p q : ScreenPosition) : 0 <= distance p q.
Proof. unfold distance. apply sqrt_pos. Qed.

Lemma distance_self (p : ScreenPosition) : distance p p = 0.
Proof.
  unfold distance.
  replace ((x p - x p) * (x p - x p) + (y p - y p) * (y p - y p)) with 0
    by ring.
  apply sqrt_0.
Qed.

Lemma distance_zero (p q : ScreenPosition) : distance p q = 0 -> q = p.
Proof.
  unfold distance. intro H.
  apply sqrt_eq_0 in H;
    [|apply Rplus_le_le_0_compat; apply Rle_0_sqr].
  apply (Rplus_sqr_eq_0 (x p - x q) (y p - y q)) in H. destruct H as [X Y].
  destruct p as [px py], q as [qx qy]; cbn [x y] in *.
  f_equal; lra.
Qed.

Lemma assistStep_assisted (raw : ScreenPosition) (seen : list ScreenPosition)
    (a : Assist) (disc : ScreenPosition) :
  assisted raw seen a ->
  assisted raw (seen ++ [disc]) (assistStep raw a disc).
Proof.
  intro A. unfold assistStep. fold (distance raw disc).
  destruct (Rltb (distance raw disc) AIM_ASSIST_RADIUS) eqn:Rg; cbn [andb].
  - destruct (ltExt (distance raw disc) (closestDist a)) eqn:Cl.
    + apply Rltb_true in Rg. unfold assisted in *; cbn [closestDist].
      exists disc. split; [apply in_or_app; right; left; reflexivity|].
      split; [reflexivity|]. split; [exact Rg|].
      split; [|cbn [aimX aimY locked]; auto].
      intros d H. apply in_app_or in H. destruct H as [H|[H|[]]].
      * destruct (closestDist a) as [r|].
        -- destruct A as (c & _ & _ & _ & Le & _). cbn [ltExt] in Cl.
           apply Rltb_true in Cl. specialize (Le d H). lra.
        -- destruct A as (_ & _ & _ & Far). specialize (Far d H). lra.
      * subst d. lra.
    + unfold assisted in *. destruct (closestDist a) as [r|]; [|discriminate].
      cbn [ltExt] in Cl. apply Rltb_false in Cl.
      destruct A as (c & I & E & Lt & Le & Rest).
      exists c. split; [apply in_or_app; left; exact I|].
      split; [exact E|]. split; [exact Lt|]. split; [|exact Rest].
      intros d H. apply in_app_or in H. destruct H as [H|[H|[]]].
      * apply Le; exact H.
      * subst d. exact Cl.
  - apply Rltb_false in Rg. unfold assisted in *.
    destruct (closestDist a) as [r|].
    + destruct A as (c & I & E & Lt & Le & Rest).
      exists c. split; [apply in_or_app; left; exact I|].
      split; [exact E|]. split; [exact Lt|]. split; [|exact Rest].
      intros d H. apply in_app_or in H. destruct H as [H|[H|[]]].
      * apply Le; exact H.
      * subst d. lra.
    + destruct A as (X & Y & L & Far). repeat split; try assumption.
      intros d H. apply in_app_or in H. destruct H as [H|[H|[]]].
      * apply Far; exact H.
      * subst d. exact Rg.
Qed.

Lemma fold_assisted (raw : ScreenPosition) (discs : list ScreenPosition) :
  forall seen a,
    assisted raw seen a ->
    assisted raw (seen ++ discs) (fold_left (assistStep raw) discs a).
Proof.
  induction discs as [|d discs IH]; intros seen a A; cbn [fold_left].
  - rewrite app_nil_r. exact A.
  - replace (seen ++ d :: discs) with ((seen ++ [d]) ++ discs)
      by (rewrite <- app_assoc; reflexivity).
    apply IH. apply assistStep_assisted. exact A.
Qed.

Lemma assist_assisted (raw : ScreenPosition) (discs : list ScreenPosition) :
  assisted raw discs (assist raw discs).
Proof.
  unfold assist.
  apply (fold_assisted raw discs []).
  unfold assisted; cbn [closestDist aimX aimY locked].
  repeat split. intros d [].
Qed.

Lemma assist_on_target (raw : ScreenPosition) (discs : list ScreenPosition) :
  In raw discs ->
  aimX (assist raw discs) = x raw /\ aimY (assist raw discs) = y raw
  /\ locked (assist raw discs) = true.
Proof.
  intro I. pose proof (assist_assisted raw discs) as A. unfold assisted in A.
  destruct (closestDist (assist raw discs)) as [r|].
  - destruct A as (c & Ic & E & Lt & Le & X & Y & L).
    assert (Z : r = 0).
    { specialize (Le raw I). rewrite distance_self in Le.
      pose proof (distance_nonneg raw c). lra. }
    assert (D : distance raw c = 0) by lra.
    apply distance_zero in D. subst c.
    rewrite X, Y, L, Z. repeat split; try ring.
    apply Rltb_true. unfold AIM_ASSIST_RADIUS. lra.
  - destruct A as (_ & _ & _ & Far). specialize (Far raw I).
    rewrite distance_self in Far. unfold AIM_ASSIST_RADIUS in Far. lra.
Qed.

Lemma assist_out_of_reach (raw : ScreenPosition) (discs : list ScreenPosition) :
  (forall d, In d discs -> 150 <= distance raw d) ->
  aimX (assist raw discs) = x raw /\ aimY (assist raw discs) = y raw
  /\ locked (assist raw discs) = false.
Proof.
  intro Far. pose proof (assist_assisted raw discs) as A. unfold assisted in A.
  destruct (closestDist (assist raw discs)) as [r|].
  - destruct A as (c & Ic & E & Lt & _). specialize (Far c Ic).
    unfold AIM_ASSIST_RADIUS in Lt. lra.
  - destruct A as (X & Y & L & _). auto.
Qed.

(** The pull on a concrete frame: with the raw aim at (0,0), a disc at
    (200,0) out of reach and a disc at (60,0), the strength is
    [0.45 * (1 - 60 / 150) = 0.27], the aim moves to (16.2, 0) and the
    target is locked. *)
Example assist_pull :
  update create (Some (pos 0 0)) (Some (pos 0 300)) [pos 200 0; pos 60 0]
  = (Some (pos (0 + (60 - 0) * (0.45 * (1 - 60 / 150)))
               (0 + (0 - 0) * (0.45 * (1 - 60 / 150)))),
     mk (pos (0 + (60 - 0) * (0.45 * (1 - 60 / 150)))
             (0 + (0 - 0) * (0.45 * (1 - 60 / 150))))
        true true true)
  /\ 0 + (60 - 0) * (0.45 * (1 - 60 / 150)) = 16.2.
Proof.
  assert (D1 : sqrt ((0 - 200) * (0 - 200) + (0 - 0) * (0 - 0)) = 200).
  { replace ((0 - 200) * (0 - 200) + (0 - 0) * (0 - 0)) with (200 * 200)
      by ring.
    apply sqrt_square. lra. }
  assert (D2 : sqrt ((0 - 60) * (0 - 60) + (0 - 0) * (0 - 0)) = 60).
  { replace ((0 - 60) * (0 - 60) + (0 - 0) * (0 - 0)) with (60 * 60) by ring.
    apply sqrt_square. lra. }
  split; [|lra].
  assert (S1 : assistStep (pos 0 0) (mkAssist 0 0 false Infinity) (pos 200 0)
               = mkAssist 0 0 false Infinity).
  { unfold assistStep. cbn [x y closestDist]. rewrite D1.
    rewrite (proj2 (Rltb_false 200 AIM_ASSIST_RADIUS))
      by (unfold AIM_ASSIST_RADIUS; lra).
    reflexivity. }
  assert (S2 : assistStep (pos 0 0) (mkAssist 0 0 false Infinity) (pos 60 0)
               = mkAssist (0 + (60 - 0) * (0.45 * (1 - 60 / 150)))
                          (0 + (0 - 0) * (0.45 * (1 - 60 / 150)))
                          true (Fin 60)).
  { unfold assistStep. cbn [x y closestDist ltExt]. rewrite D2.
    rewrite (proj2 (Rltb_true 60 AIM_ASSIST_RADIUS))
      by (unfold AIM_ASSIST_RADIUS; lra).
    rewrite (proj2 (Rltb_true 60 (AIM_ASSIST_RADIUS * 0.5)))
      by (unfold AIM_ASSIST_RADIUS; lra).
    reflexivity. }
  unfold update, assist. cbn [fold_left x y]. rewrite S1, S2. reflexivity.
Qed.

(** Claim C9.  With a raw aim and a hand base, [update] returns the raw
    aim itself and reports locked when the raw aim is one of the target
    positions, and returns the raw aim unchanged and reports not locked
    when every target is at distance 150 or more.  In general the result
    is the raw aim pulled towards a closest target within 150 px with
    strength [0.45 * (1 - distance / 150)], locked when that distance is
    below 75. *)
Theorem aim_assist (s : ShootingSystem.t) (raw base : ScreenPosition)
    (near far : list ScreenPosition) :
  In raw near ->
  (forall d, In d far -> 150 <= distance raw d) ->
  update s (Some raw) (Some base) near = (Some raw, mk raw true true true)
  /\ update s (Some raw) (Some base) far = (Some raw, mk raw false true true)
  /\ (forall discs, assisted raw discs (assist raw discs))
  /\ (forall discs,
        fst (update s (Some raw) (Some base) discs)
        = Some (pos (aimX (assist raw discs)) (aimY (assist raw discs)))
        /\ isTargetLocked (snd (update s (Some raw) (Some base) discs))
           = locked (assist raw discs)).
Proof.
  intros On Off.
  destruct (assist_on_target raw near On) as (X1 & Y1 & L1).
  destruct (assist_out_of_reach raw far Off) as (X2 & Y2 & L2).
  unfold update. rewrite X1, Y1, L1, X2, Y2, L2.
  destruct raw as [rx ry]; cbn [x y].
  repeat split. apply assist_assisted.
Qed.

Lemma aim_assist_witness :
  update create (Some (pos 100 100)) (Some (pos 0 0))
         [pos 300 300; pos 100 100]
  = (Some (pos 100 100), mk (pos 100 100) true true true)
  /\ update create (Some (pos 100 100)) (Some (pos 0 0)) [pos 300 100]
     = (Some (pos 100 100), mk (pos 100 100) false true true).
Proof.
  assert (On : In (pos 100 100) [pos 300 300; pos 100 100])
    by (right; left; reflexivity).
  assert (Off : forall d, In d [pos 300 100] -> 150 <= distance (pos 100 100) d).
  { intros d [H|[]]. subst d. unfold distance; cbn [x y].
    replace ((100 - 300) * (100 - 300) + (100 - 100) * (100 - 100))
      with (200 * 200) by ring.
    rewrite sqrt_square; lra. }
  pose proof (aim_assist create (pos 100 100) (pos 0 0) _ _ On Off)
    as (A & B & _).
  split; assumption.
Defined.

End ShootingSystemFacts.

(** ** GestureDetector: soft failure and trigger cooldown *)

Module GestureDetectorFacts.
Import JS JSFacts GestureDetector.
Local Open Scope R_scope.

Lemma detect_no_hand (s : t) (landmarks : option (list HandLandmark))
    (w h now : R) :
  landmarks = None
  \/ (exists l, landmarks = Some l /\ (length l < 21)%nat) ->
  detect s landmarks w h now
  = (noGesture,
     mk (lastShotTime s)
        (mkDebug false (dbgIndexExtended (debugInfo s))
                 (dbgCurledCount (debugInfo s)) (dbgThumbAngle (debugInfo s))
                 (dbgIsPistol (debugInfo s)) (dbgTriggered (debugInfo s)))).
Proof.
  intros [E|(l & E & L)]; subst landmarks; unfold detect.
  - reflexivity.
  - apply Nat.ltb_lt in L. rewrite L. reflexivity.
Qed.

(** What [detect] decides about the trigger on a full hand. *)
Lemma detect_triggered (s : t) (l : list HandLandmark) (w h now : R) :
  (21 <= length l)%nat ->
  triggered (fst (detect s (Some l) w h now))
  = Rltb (thumbAngleOf l) THUMB_BENT_ANGLE
    && Rltb SHOOT_COOLDOWN (now - lastShotTime s)
  /\ lastShotTime (snd (detect s (Some l) w h now))
     = if triggered (fst (detect s (Some l) w h now))
       then now else lastShotTime s.
Proof.
  intro L. unfold detect. apply Nat.ltb_ge in L. rewrite L.
  cbn [fst snd triggered lastShotTime]. split; reflexivity.
Qed.

Lemma triggered_iff (s : t) (l : list HandLandmark) (w h now : R) :
  (21 <= length l)%nat ->
  triggered (fst (detect s (Some l) w h now)) = true
  <-> thumbAngleOf l < 155 /\ 500 < now - lastShotTime s.
Proof.
  intro L. destruct (detect_triggered s l w h now L) as [T _]. rewrite T.
  rewrite andb_true_iff, !Rltb_true. reflexivity.
Qed.

Lemma mag_unit_x : sqrt ((1 - 0) ^ 2 + (0 - 0) ^ 2 + (0 - 0) ^ 2) = 1.
Proof.
  replace ((1 - 0) ^ 2 + (0 - 0) ^ 2 + (0 - 0) ^ 2) with 1 by ring.
  apply sqrt_1.
Qed.

Lemma mag_unit_y : sqrt ((0 - 0) ^ 2 + (1 - 0) ^ 2 + (0 - 0) ^ 2) = 1.
Proof.
  replace ((0 - 0) ^ 2 + (1 - 0) ^ 2 + (0 - 0) ^ 2) with 1 by ring.
  apply sqrt_1.
Qed.

Lemma mag_zero : sqrt ((0 - 0) ^ 2 + (0 - 0) ^ 2 + (0 - 0) ^ 2) = 0.
Proof.
  replace ((0 - 0) ^ 2 + (0 - 0) ^ 2 + (0 - 0) ^ 2) with 0 by ring.
  apply sqrt_0.
Qed.

(** The right-angle thumb reads 90 degrees. *)
Lemma bentThumbHand_angle : thumbAngleOf bentThumbHand = 90.
Proof.
  unfold thumbAngleOf, angleAtJoint, bentThumbHand, at_.
  cbn [nth app x y z]. rewrite mag_unit_x, mag_unit_y.
  rewrite (proj2 (Rltb_false 1 0.0001)) by lra. cbn [orb].
  replace (((1 - 0) * (0 - 0) + (0 - 0) * (1 - 0) + (0 - 0) * (0 - 0))
           / (1 * 1)) with 0 by (field; lra).
  rewrite Rmin_right by lra. rewrite Rmax_right by lra.
  rewrite acos_0. field. apply PI_neq0.
Qed.

(** Coinciding thumb landmarks read 180 degrees. *)
Lemma pointHand_angle : thumbAngleOf pointHand = 180.
Proof.
  unfold thumbAngleOf, angleAtJoint, pointHand, at_.
  cbn [nth repeat x y z]. rewrite mag_zero.
  rewrite (proj2 (Rltb_true 0 0.0001)) by lra. reflexivity.
Qed.

(** A thumb set at [deg] degrees reads [deg]. *)
Lemma handWithThumbAt_angle (deg : R) :
  0 <= deg <= 180 -> thumbAngleOf (handWithThumbAt deg) = deg.
Proof.
  intro B. unfold thumbAngleOf, angleAtJoint, handWithThumbAt, at_.
  cbn [nth app x y z]. set (a := deg * (PI / 180)).
  rewrite mag_unit_x.
  replace ((cos a - 0) ^ 2 + (sin a - 0) ^ 2 + (0 - 0) ^ 2)
    with (Rsqr (sin a) + Rsqr (cos a)) by (unfold Rsqr; ring).
  rewrite sin2_cos2, sqrt_1.
  rewrite (proj2 (Rltb_false 1 0.0001)) by lra. cbn [orb].
  replace (((1 - 0) * (cos a - 0) + (0 - 0) * (sin a - 0)
            + (0 - 0) * (0 - 0)) / (1 * 1)) with (cos a) by (field; lra).
  pose proof (COS_bound a) as [Lo Hi].
  rewrite Rmin_right by exact Hi. rewrite Rmax_right by exact Lo.
  pose proof PI_RGT_0 as P.
  rewrite acos_cos.
  - unfold a. field. apply PI_neq0.
  - unfold a. split.
    + apply Rmult_le_pos; lra.
    + replace PI with (180 * (PI / 180)) at 2 by (field; lra).
      apply Rmult_le_compat_r; lra.
Qed.

(** Claim C2.  On a null landmark list, or one with fewer than 21
    entries, [detect] returns the gesture with [isPistol = false],
    [triggered = false] and both points null; it leaves the last-shot
    time alone and records that no hand is seen.  The function is total:
    there is no input on which it fails. *)
Theorem no_hand_no_gesture (s : GestureDetector.t)
    (landmarks : option (list HandLandmark)) (w h now : R) :
  landmarks = None
  \/ (exists l, landmarks = Some l /\ (length l < 21)%nat) ->
  fst (detect s landmarks w h now) = mkGesture false None None false
  /\ isPistol (fst (detect s landmarks w h now)) = false
  /\ triggered (fst (detect s landmarks w h now)) = false
  /\ aimPosition (fst (detect s landmarks w h now)) = None
  /\ handBase (fst (detect s landmarks w h now)) = None
  /\ lastShotTime (snd (detect s landmarks w h now)) = lastShotTime s
  /\ hasHand (debugInfo (snd (detect s landmarks w h now))) = false.
Proof.
  intro H. rewrite (detect_no_hand s landmarks w h now H).
  repeat split.
Qed.

Lemma no_hand_no_gesture_witness :
  fst (detect create None 800 600 1000) = mkGesture false None None false
  /\ fst (detect create (Some (repeat (lm 0.5 0.5 0) 20)) 800 600 1000)
     = mkGesture false None None false.
Proof.
  split.
  - refine (proj1 (no_hand_no_gesture create None 800 600 1000 _)).
    left. reflexivity.
  - refine (proj1 (no_hand_no_gesture create
                     (Some (repeat (lm 0.5 0.5 0) 20)) 800 600 1000 _)).
    right. exists (repeat (lm 0.5 0.5 0) 20). split; [reflexivity|].
    rewrite repeat_length. lia.
Defined.

(** Claim C1, as the code has it.  On a full hand, [detect] reports the
    trigger exactly when the thumb angle is below 155 degrees and more
    than 500 ms have passed since the last-shot time (0 at creation and
    after [reset]); a frame that fires sets the last-shot time to its own
    time, any other leaves it.  So of two successive frames at most
    500 ms apart at most one fires, and an angle of exactly 155 or 180
    degrees never fires. *)
Theorem trigger_cooldown (s : GestureDetector.t)
    (l1 l2 : list HandLandmark) (w h now1 now2 : R) :
  (21 <= length l1)%nat -> (21 <= length l2)%nat ->
  (triggered (fst (detect s (Some l1) w h now1)) = true
   <-> thumbAngleOf l1 < 155 /\ 500 < now1 - lastShotTime s)
  /\ (triggered (fst (detect s (Some l1) w h now1)) = true ->
      lastShotTime (snd (detect s (Some l1) w h now1)) = now1)
  /\ (triggered (fst (detect s (Some l1) w h now1)) = false ->
      lastShotTime (snd (detect s (Some l1) w h now1)) = lastShotTime s)
  /\ (now2 - now1 <= 500 ->
      ~ (triggered (fst (detect s (Some l1) w h now1)) = true
         /\ triggered
              (fst (detect (snd (detect s (Some l1) w h now1)) (Some l2)
                           w h now2)) = true))
  /\ (thumbAngleOf l1 = 155 ->
      triggered (fst (detect s (Some l1) w h now1)) = false)
  /\ (thumbAngleOf l1 = 180 ->
      triggered (fst (detect s (Some l1) w h now1)) = false).
Proof.
  intros L1 L2.
  pose proof (triggered_iff s l1 w h now1 L1) as T1.
  destruct (detect_triggered s l1 w h now1 L1) as [_ S1].
  assert (Not : forall a, thumbAngleOf l1 = a -> 155 <= a ->
            triggered (fst (detect s (Some l1) w h now1)) = false).
  { intros a E A. apply not_true_is_false. intro B. apply T1 in B. lra. }
  split; [exact T1|]. split; [|split; [|split; [|split]]].
  - intro B. rewrite S1, B. reflexivity.
  - intro B. rewrite S1, B. reflexivity.
  - intros Gap [B1 B2].
    apply (triggered_iff _ l2 w h now2 L2) in B2.
    rewrite S1, B1 in B2. lra.
  - intro E. apply (Not 155 E). lra.
  - intro E. apply (Not 180 E). lra.
Qed.

Lemma trigger_cooldown_witness :
  (triggered (fst (detect create (Some bentThumbHand) 800 600 1000)) = true
   <-> thumbAngleOf bentThumbHand < 155 /\ 500 < 1000 - lastShotTime create)
  /\ triggered (fst (detect create (Some (handWithThumbAt 155)) 800 600 1000))
     = false
  /\ triggered (fst (detect create (Some (handWithThumbAt 180)) 800 600 1000))
     = false
  /\ triggered (fst (detect create (Some pointHand) 800 600 1000)) = false.
Proof.
  assert (L1 : (21 <= length bentThumbHand)%nat)
    by (unfold bentThumbHand; rewrite length_app, repeat_length; cbn; lia).
  assert (L2 : (21 <= length pointHand)%nat)
    by (unfold pointHand; rewrite repeat_length; lia).
  assert (L3 : forall deg, (21 <= length (handWithThumbAt deg))%nat)
    by (intro deg; unfold handWithThumbAt;
        rewrite length_app, repeat_length; cbn; lia).
  split; [|split; [|split]].
  - exact (proj1 (trigger_cooldown create bentThumbHand bentThumbHand
                    800 600 1000 1200 L1 L1)).
  - refine (proj1 (proj2 (proj2 (proj2 (proj2
             (trigger_cooldown create (handWithThumbAt 155) bentThumbHand
                               800 600 1000 1200 (L3 155) L1))))) _).
    apply handWithThumbAt_angle. lra.
  - refine (proj2 (proj2 (proj2 (proj2 (proj2
             (trigger_cooldown create (handWithThumbAt 180) bentThumbHand
                               800 600 1000 1200 (L3 180) L1))))) _).
    apply handWithThumbAt_angle. lra.
  - refine (proj2 (proj2 (proj2 (proj2 (proj2
             (trigger_cooldown create pointHand pointHand
                               800 600 1000 1200 L2 L2))))) _).
    apply pointHand_angle.
Defined.

(** Claim C1 as stated fails at the boundary.  A bent thumb (90 degrees)
    fires at time 1000; the next frame, exactly 500 ms later and as bent,
    does not fire, although 500 ms have elapsed since the last fire. *)
Lemma no_fire_at_exactly_500ms :
  thumbAngleOf bentThumbHand < 155
  /\ triggered (fst (detect create (Some bentThumbHand) 800 600 1000)) = true
  /\ lastShotTime (snd (detect create (Some bentThumbHand) 800 600 1000))
     = 1000
  /\ 1500 - 1000 >= 500
  /\ triggered
       (fst (detect (snd (detect create (Some bentThumbHand) 800 600 1000))
                    (Some bentThumbHand) 800 600 1500)) = false.
Proof.
  assert (L : (21 <= length bentThumbHand)%nat)
    by (unfold bentThumbHand; rewrite length_app, repeat_length; cbn; lia).
  assert (A : thumbAngleOf bentThumbHand < 155)
    by (rewrite bentThumbHand_angle; lra).
  assert (F : triggered (fst (detect create (Some bentThumbHand) 800 600 1000))
              = true).
  { apply (triggered_iff create bentThumbHand 800 600 1000 L).
    split; [exact A|]. unfold create; cbn [lastShotTime]. lra. }
  destruct (detect_triggered create bentThumbHand 800 600 1000 L) as [_ S].
  rewrite F in S.
  split; [exact A|]. split; [exact F|]. split; [exact S|]. split; [lra|].
  apply not_true_is_false. intro B.
  apply (triggered_iff _ bentThumbHand 800 600 1500 L) in B.
  rewrite S in B. lra.
Qed.

End GestureDetectorFacts.

(** ** ScoreManager: high-water mark, points, activity, notifications *)

Module ScoreManagerMore.
Import ScoreManager ScoreManagerFacts.
Local Open Scope Q_scope.

Lemma hit_maxCombo (s : t) (now : Q) (m : option Q) :
  maxCombo (snd (hit s now m)) = Nat.max (maxCombo s) (comboAfter s now).
Proof.
  unfold hit; cbn [snd].
  match goal with
  | |- context [fireOnChange ?u] =>
      destruct (fireOnChange_fields u) as (_ & _ & Hm & _); rewrite Hm
  end.
  cbn [maxCombo]. fold (comboAfter s now).
  destruct (Nat.ltb_spec (maxCombo s) (comboAfter s now)); lia.
Qed.

Lemma step_high_water (s : t) (c : call) :
  (combo s <= maxCombo s)%nat ->
  (combo (step s c) <= maxCombo (step s c))%nat
  /\ (maxCombo s <= maxCombo (step s c))%nat
  /\ (maxCombo (step s c)
      <= maxCombo s + match c with Hit _ _ => 1 | Miss => 0 end)%nat.
Proof.
  intro H. destruct c as [now m|]; cbn [step].
  - destruct (hit_combo s now m) as (Hc & _).
    rewrite Hc, hit_maxCombo. pose proof (comboAfter_le s now). lia.
  - destruct (miss_fields s) as (_ & Hc & Hm). rewrite Hc, Hm. lia.
Qed.

Lemma run_high_water (cs : list call) :
  forall s,
    (combo s <= maxCombo s)%nat ->
    (combo (run s cs) <= maxCombo (run s cs))%nat
    /\ (maxCombo s <= maxCombo (run s cs))%nat
    /\ (maxCombo (run s cs) <= maxCombo s + countHits cs)%nat.
Proof.
  induction cs as [|c cs IH]; intros s H; cbn [run fold_left countHits].
  - lia.
  - destruct (step_high_water s c H) as (A & B & C).
    destruct (IH (step s c) A) as (A' & B' & C'). unfold run in *.
    destruct c; cbn [countHits]; lia.
Qed.

(** X1.  [maxCombo] is a high-water mark of [combo]: when it bounds the
    combo before a sequence of hits and misses, it bounds it after, it
    never goes down, and it grows by at most the number of hits; a miss
    leaves it, and the score, alone. *)
Theorem maxCombo_high_water (s : ScoreManager.t) (cs : list call) :
  (combo s <= maxCombo s)%nat ->
  (getCombo (run s cs) <= getMaxCombo (run s cs))%nat
  /\ (getMaxCombo s <= getMaxCombo (run s cs))%nat
  /\ (getMaxCombo (run s cs) <= getMaxCombo s + countHits cs)%nat
  /\ getMaxCombo (miss s) = getMaxCombo s
  /\ getScore (miss s) = getScore s.
Proof.
  intro H. destruct (run_high_water cs s H) as (A & B & C).
  destruct (miss_fields s) as (Ms & _ & Mm).
  unfold getCombo, getMaxCombo, getScore. repeat split; assumption.
Qed.

Lemma maxCombo_high_water_witness :
  (getCombo (run (reset create) [Hit 100 None; Hit 200 None; Miss; Hit 300 None])
   <= getMaxCombo
        (run (reset create) [Hit 100 None; Hit 200 None; Miss; Hit 300 None]))%nat.
Proof.
  refine (proj1 (maxCombo_high_water (reset create)
                   [Hit 100 None; Hit 200 None; Miss; Hit 300 None] _)).
  cbn. lia.
Defined.

Lemma Qfloor_half (z : Z) (q : Q) : q == inject_Z z -> Math_round q = z.
Proof.
  intro E. unfold Math_round.
  assert (E' : q + (1 # 2) == inject_Z z + (1 # 2)) by (rewrite E; reflexivity).
  rewrite (Qfloor_comp _ _ E').
  pose proof (Qfloor_le (inject_Z z + (1 # 2))) as Lo.
  pose proof (Qlt_floor (inject_Z z + (1 # 2))) as Hi.
  set (f := Qfloor (inject_Z z + (1 # 2))) in *.
  assert (A : inject_Z f < inject_Z (z + 1)).
  { eapply Qle_lt_trans; [exact Lo|]. rewrite inject_Z_plus.
    apply Qplus_lt_r. reflexivity. }
  assert (B : inject_Z z < inject_Z (f + 1)).
  { eapply Qle_lt_trans; [|exact Hi].
    rewrite <- (Qplus_0_r (inject_Z z)) at 1. apply Qplus_le_r. discriminate. }
  rewrite <- Zlt_Qlt in A, B. lia.
Qed.

(** The points of one hit at each multiplier tier. *)
Lemma multiplierOf_cases (c : nat) :
  multiplierOf c = 5 \/ multiplierOf c = 3 \/ multiplierOf c = 2
  \/ multiplierOf c = 3 # 2 \/ multiplierOf c = 1.
Proof.
  unfold multiplierOf.
  repeat match goal with |- context [if ?b then _ else _] => destruct b end;
    auto.
Qed.

(** X2.  With a whole-number tier multiplier [k] the rounding of a hit
    loses nothing: the points are exactly 100 x multiplier x k, the
    multiplier being that of the combo the hit leaves.  The same holds
    without a tier multiplier ([k = 1]), and the points are added to the
    score.  This is stated where the numbers of the program hold whole
    values exactly, for [k] up to 10^12 and a score up to 10^15 in
    magnitude; the points then stay within 5 x 10^14 and the new score
    below 2^53. *)
Theorem hit_points_exact (s : ScoreManager.t) (now : Q) (k : Z) :
  (Z.abs k <= 10 ^ 12)%Z ->
  (Z.abs (getScore s) <= 10 ^ 15)%Z ->
  inject_Z (points (fst (hit s now (Some (inject_Z k)))))
  == 100 * multiplier (fst (hit s now (Some (inject_Z k)))) * inject_Z k
  /\ inject_Z (points (fst (hit s now None)))
     == 100 * multiplier (fst (hit s now None))
  /\ getScore (snd (hit s now (Some (inject_Z k))))
     = (getScore s + points (fst (hit s now (Some (inject_Z k)))))%Z
  /\ (Z.abs (points (fst (hit s now (Some (inject_Z k))))) <= 5 * 10 ^ 14)%Z
  /\ (Z.abs (getScore (snd (hit s now (Some (inject_Z k))))) < 2 ^ 53)%Z.
Proof.
  intros K B.
  assert (G : forall (tm : Q) (j : Z),
            tm == inject_Z j ->
            exists m : Z,
              (m = 500 \/ m = 300 \/ m = 200 \/ m = 150 \/ m = 100)%Z
              /\ Math_round (basePoints * multiplierOf (comboAfter s now) * tm)
                 = (m * j)%Z
              /\ inject_Z (m * j)
                 == 100 * multiplierOf (comboAfter s now) * tm).
  { intros tm j T. unfold basePoints.
    destruct (multiplierOf_cases (comboAfter s now))
      as [E|[E|[E|[E|E]]]]; rewrite E.
    - exists 500%Z. split; [tauto|]. split.
      + apply Qfloor_half. rewrite inject_Z_mult, T. ring.
      + rewrite inject_Z_mult, T. ring.
    - exists 300%Z. split; [tauto|]. split.
      + apply Qfloor_half. rewrite inject_Z_mult, T. ring.
      + rewrite inject_Z_mult, T. ring.
    - exists 200%Z. split; [tauto|]. split.
      + apply Qfloor_half. rewrite inject_Z_mult, T. ring.
      + rewrite inject_Z_mult, T. ring.
    - exists 150%Z. split; [tauto|]. split.
      + apply Qfloor_half. rewrite inject_Z_mult, T. field.
      + rewrite inject_Z_mult, T. field.
    - exists 100%Z. split; [tauto|]. split.
      + apply Qfloor_half. rewrite inject_Z_mult, T. ring.
      + rewrite inject_Z_mult, T. ring. }
  assert (P : points (fst (hit s now (Some (inject_Z k))))
              = Math_round (basePoints * multiplierOf (comboAfter s now)
                            * inject_Z k)).
  { unfold hit, getMultiplier; cbn [fst points multiplier combo].
    reflexivity. }
  assert (M : multiplier (fst (hit s now (Some (inject_Z k))))
              = multiplierOf (comboAfter s now)).
  { unfold hit, getMultiplier; cbn [fst points multiplier combo].
    reflexivity. }
  assert (Sc : getScore (snd (hit s now (Some (inject_Z k))))
               = (getScore s + points (fst (hit s now (Some (inject_Z k)))))%Z).
  { unfold getScore. apply hit_score. }
  destruct (G (inject_Z k) k (Qeq_refl _)) as (m & Hm & R & V).
  split; [|split; [|split; [|split]]].
  - rewrite P, M, R. exact V.
  - unfold hit, getMultiplier; cbn [fst points multiplier combo].
    fold (comboAfter s now).
    destruct (G 1 1%Z (Qeq_refl _)) as (m1 & _ & R1 & V1).
    rewrite R1, V1. ring.
  - exact Sc.
  - rewrite P, R. lia.
  - rewrite Sc, P, R. lia.
Qed.

Lemma hit_points_exact_witness :
  inject_Z (points (fst (hit create 1000 (Some (inject_Z 5)))))
  == 100 * multiplier (fst (hit create 1000 (Some (inject_Z 5)))) * inject_Z 5
  /\ points (fst (hit create 1000 (Some (inject_Z 5)))) = 500%Z.
Proof.
  split; [|reflexivity].
  refine (proj1 (hit_points_exact create 1000 5 _ _)).
  - cbn. lia.
  - cbn. lia.
Defined.

Lemma isComboActive_true (s : t) (now : Q) :
  isComboActive s now = true
  <-> (0 < combo s)%nat /\ now - lastHitTime s < comboTimeout.
Proof.
  unfold isComboActive. rewrite andb_true_iff, Nat.ltb_lt.
  fold (Qgtb comboTimeout (now - lastHitTime s)). rewrite Qgtb_true.
  reflexivity.
Qed.

(** X3.  While [isComboActive] holds, a hit extends the combo by one.
    After a hit at time [t0] the combo is active at [t] exactly when
    [t - t0 < 2000].  The two tests differ at the boundary: exactly
    2000 ms after the last hit the combo is reported inactive, yet a hit
    at that moment still extends it. *)
Theorem active_combo_extends (s : ScoreManager.t) (now : Q) (m : option Q) :
  isComboActive s now = true ->
  getCombo (snd (hit s now m)) = S (getCombo s)
  /\ hitCombo (fst (hit s now m)) = S (getCombo s)
  /\ (forall s0 t0 m0 t,
        isComboActive (snd (hit s0 t0 m0)) t = true <-> t - t0 < 2000)
  /\ (forall s0 t m0,
        t - lastHitTime s0 == 2000 ->
        isComboActive s0 t = false
        /\ getCombo (snd (hit s0 t m0)) = S (getCombo s0)).
Proof.
  intro A. apply isComboActive_true in A. destruct A as [_ A].
  destruct (hit_combo s now m) as (Hc & Hh & _).
  assert (W : comboAfter s now = S (combo s)).
  { apply comboAfter_within. apply Qlt_le_weak. exact A. }
  unfold getCombo. rewrite Hc, Hh, W.
  split; [reflexivity|]. split; [reflexivity|]. split.
  - intros s0 t0 m0 t. rewrite isComboActive_true.
    destruct (hit_combo s0 t0 m0) as (Hc0 & _ & _ & Hl0).
    rewrite Hc0, Hl0. unfold comboAfter, comboTimeout. split.
    + intros [_ H]. exact H.
    + intro H. split; [lia | exact H].
  - intros s0 t m0 E. split.
    + apply not_true_is_false. intro B. apply isComboActive_true in B.
      destruct B as [_ B]. unfold comboTimeout in B. rewrite E in B.
      revert B. apply Qlt_irrefl.
    + destruct (hit_combo s0 t m0) as (Hc0 & _). rewrite Hc0.
      apply comboAfter_within. unfold comboTimeout. rewrite E.
      apply Qle_refl.
Qed.

Lemma active_combo_extends_witness :
  getCombo (snd (hit (snd (hit (reset create) 1000 None)) 2500 (Some 2)))
  = S (getCombo (snd (hit (reset create) 1000 None))).
Proof.
  refine (proj1 (active_combo_extends
                   (snd (hit (reset create) 1000 None)) 2500 (Some 2) _)).
  reflexivity.
Defined.

Lemma fireOnChange_notified (s : t) :
  notified (fireOnChange s)
  = (notified s + if listening s then 1 else 0)%nat.
Proof.
  unfold fireOnChange. destruct s as [sc c mc l [|] n]; cbn; lia.
Qed.

Lemma step_notified (s : t) (c : call) :
  listening (step s c) = listening s
  /\ notified (step s c) = (notified s + if listening s then 1 else 0)%nat.
Proof.
  destruct c as [now m|]; cbn [step]; unfold hit, miss; cbn [snd];
    match goal with
    | |- context [fireOnChange ?u] =>
        destruct (fireOnChange_fields u) as (_ & _ & _ & _ & Hl);
        rewrite Hl, (fireOnChange_notified u)
    end; cbn [listening notified]; auto.
Qed.

(** X4.  A callback registered with [onScoreChange] is called exactly
    once by every hit, every miss and every reset, so a sequence of calls
    notifies it as many times as it is long; without a callback nothing
    is counted. *)
Theorem listener_called_once_per_call (s : ScoreManager.t) (cs : list call) :
  notified (run (onScoreChange s) cs) = (notified s + length cs)%nat
  /\ notified (reset (onScoreChange s)) = S (notified s)
  /\ notified (run create cs) = 0%nat
  /\ listening (run (onScoreChange s) cs) = true.
Proof.
  assert (G : forall l u,
            listening (run u l) = listening u
            /\ notified (run u l)
               = (notified u + if listening u then length l else 0)%nat).
  { induction l as [|c l IH]; intro u; cbn [run fold_left length].
    - destruct (listening u); split; auto; lia.
    - destruct (step_notified u c) as [L N].
      destruct (IH (step u c)) as [L' N']. unfold run in *.
      rewrite L', N', L, N. destruct (listening u); split; auto; lia. }
  destruct (G cs (onScoreChange s)) as [L N].
  destruct (G cs create) as [_ N0].
  rewrite N, N0, L. cbn [onScoreChange create listening notified].
  split; [lia|]. split; [|split; [lia | reflexivity]].
  unfold reset, onScoreChange. rewrite fireOnChange_notified. cbn. lia.
Qed.

End ScoreManagerMore.

(** ** GameManager: callback, timer bounds, round length *)

Module GameManagerMore.
Import GameManager GameManagerFacts.
Local Open Scope Q_scope.

(** The callbacks fired so far, plus the one the running round still owes. *)
Lemma step_owed (g : t) (c : call) :
  (gameOverFired (step g c) + (if isPlaying (step g c) then 1 else 0)
   <= gameOverFired g + (if isPlaying g then 1 else 0)
      + match c with StartGame => 1 | _ => 0 end)%nat.
Proof.
  destruct g as [st tr sm dm cb n].
  destruct c as [|dt| | |]; cbn [step];
    unfold startGame, update, endGame, restart, setOnGameOver, isPlaying;
    cbn [state timeRemaining scoreManager discManager onGameOver
         gameOverFired negb];
    destruct st; cbn [negb state gameOverFired]; try lia.
  all: try destruct (Qle_bool (tr - dt) 0); cbn [state gameOverFired negb];
    destruct cb; cbn [state gameOverFired]; lia.
Qed.

Lemma run_owed (cs : list call) :
  forall g,
    (gameOverFired (run g cs) + (if isPlaying (run g cs) then 1 else 0)
     <= gameOverFired g + (if isPlaying g then 1 else 0) + countStarts cs)%nat.
Proof.
  induction cs as [|c cs IH]; intro g; cbn [run fold_left countStarts].
  - lia.
  - pose proof (step_owed g c) as S. specialize (IH (step g c)).
    unfold run in IH. destruct c; lia.
Qed.

(** X5.  The game-over callback fires at most once per round: over any
    sequence of calls it has fired at most once for every [startGame] in
    the sequence, plus once if a round was running at the start.  Ending
    a game twice is ending it once, and ending a running game with a
    callback set fires it exactly once. *)
Theorem game_over_fires_once_per_round (g : GameManager.t) (cs : list call) :
  (gameOverFired (run g cs)
   <= gameOverFired g + countStarts cs + (if isPlaying g then 1 else 0))%nat
  /\ endGame (endGame g) = endGame g
  /\ (state g = PLAYING -> onGameOver g = true ->
      gameOverFired (endGame g) = S (gameOverFired g))
  /\ (state g <> PLAYING -> endGame g = g).
Proof.
  split; [|split; [|split]].
  - pose proof (run_owed cs g). lia.
  - unfold endGame. destruct (isPlaying g) eqn:P; cbn [negb].
    + unfold isPlaying at 1. cbn [state negb]. reflexivity.
    + rewrite P. reflexivity.
  - intros P C. unfold endGame. rewrite (proj2 (isPlaying_true g) P).
    cbn [negb gameOverFired]. rewrite C. reflexivity.
  - intro P. unfold endGame. rewrite (proj2 (isPlaying_false g) P). reflexivity.
Qed.

Lemma step_timer (g : t) (c : call) :
  forward c ->
  0 <= timeRemaining g <= 60 ->
  (state g = PLAYING -> 0 < timeRemaining g) ->
  0 <= timeRemaining (step g c) <= 60
  /\ (state (step g c) = PLAYING -> 0 < timeRemaining (step g c)).
Proof.
  intros F B P. destruct c as [|dt| | |]; cbn [step forward] in *.
  - unfold startGame. destruct (isPlaying g) eqn:E; [auto|].
    cbn [timeRemaining state]. unfold ROUND_DURATION.
    repeat split; try discriminate; reflexivity.
  - destruct (state g) eqn:E.
    + rewrite update_not_playing by congruence. rewrite E. auto.
    + destruct (Qlt_le_dec 0 (timeRemaining g - dt)) as [R|R].
      * rewrite (update_running g dt E R). cbn [timeRemaining state].
        destruct B as [B0 B1]. split; [|intros _; exact R]. split.
        -- apply Qlt_le_weak. exact R.
        -- apply Qle_trans with (timeRemaining g); [|exact B1].
           rewrite <- (Qplus_0_r (timeRemaining g)) at 2.
           unfold Qminus. apply Qplus_le_r.
           apply (Qopp_le_compat 0 dt). exact F.
      * rewrite (update_expired g dt E R). cbn [timeRemaining state].
        repeat split; try discriminate.
    + rewrite update_not_playing by congruence. rewrite E. auto.
  - unfold endGame. destruct (isPlaying g) eqn:E; cbn [negb]; [|auto].
    cbn [timeRemaining state]. split; [exact B | discriminate].
  - unfold restart. cbn [timeRemaining state]. split; [exact B | discriminate].
  - unfold setOnGameOver. cbn [timeRemaining state]. auto.
Qed.

(** X6.  From creation, whatever is called, as long as no update is
    given a negative time step: the time remaining stays between 0 and
    60 seconds, and is strictly positive whenever a round is being
    played. *)
Theorem timer_stays_in_range (sm : ScoreManager.t) (dm : DiscManager.t)
    (cs : list call) :
  Forall forward cs ->
  0 <= getTimeRemaining (run (create sm dm) cs) <= 60
  /\ (getState (run (create sm dm) cs) = PLAYING ->
      0 < getTimeRemaining (run (create sm dm) cs)).
Proof.
  unfold getTimeRemaining, getState.
  assert (G : forall l g, Forall forward l ->
            0 <= timeRemaining g <= 60 ->
            (state g = PLAYING -> 0 < timeRemaining g) ->
            0 <= timeRemaining (run g l) <= 60
            /\ (state (run g l) = PLAYING -> 0 < timeRemaining (run g l))).
  { induction l as [|c l IH]; intros g F B P; cbn [run fold_left]; [auto|].
    inversion F as [|? ? Fc Fl]; subst.
    destruct (step_timer g c Fc B P) as [B' P'].
    apply (IH (step g c) Fl B' P'). }
  intro F. apply (G cs (create sm dm) F).
  - cbn [create timeRemaining]. unfold ROUND_DURATION. split; discriminate.
  - cbn [create state]. discriminate.
Qed.

Lemma timer_stays_in_range_witness :
  0 <= getTimeRemaining
         (run (create ScoreManager.create
                      (DiscManager.create 800 600 (fun _ => 0%R)))
              [StartGame; Update 25; Update (1 # 2); Update 40; Restart])
    <= 60.
Proof.
  refine (proj1 (timer_stays_in_range ScoreManager.create
                   (DiscManager.create 800 600 (fun _ => 0%R))
                   [StartGame; Update 25; Update (1 # 2); Update 40; Restart]
                   _)).
  repeat (apply Forall_cons; [cbn [forward]; try exact I; discriminate|]).
  apply Forall_nil.
Defined.

Lemma total_nonneg (dts : list Q) : Forall (fun dt => 0 <= dt) dts -> 0 <= total dts.
Proof.
  induction 1 as [|dt dts H _ IH]; cbn [total]; [apply Qle_refl|].
  replace 0 with (0 + 0) by reflexivity. apply Qplus_le_compat; assumption.
Qed.

Lemma updates_when_over (dts : list Q) :
  forall g, state g <> PLAYING -> run g (map Update dts) = g.
Proof.
  induction dts as [|dt dts IH]; intros g P; cbn [map run fold_left step];
    [reflexivity|].
  rewrite (update_not_playing g dt P). apply IH. exact P.
Qed.

Lemma updates_of_round (dts : list Q) :
  forall g,
    state g = PLAYING -> 0 < timeRemaining g ->
    Forall (fun dt => 0 <= dt) dts ->
    (total dts < timeRemaining g ->
     state (run g (map Update dts)) = PLAYING
     /\ timeRemaining (run g (map Update dts)) == timeRemaining g - total dts)
    /\ (timeRemaining g <= total dts ->
        state (run g (map Update dts)) = GAME_OVER
        /\ timeRemaining (run g (map Update dts)) = 0).
Proof.
  induction dts as [|dt dts IH]; intros g P T F;
    cbn [map run fold_left step total].
  - split.
    + intros _. split; [exact P|]. unfold Qminus. rewrite Qplus_0_r. reflexivity.
    + intro L. exfalso. apply (Qlt_not_le _ _ T L).
  - inversion F as [|? ? Fd Fr]; subst.
    pose proof (total_nonneg dts Fr) as N.
    destruct (Qlt_le_dec 0 (timeRemaining g - dt)) as [R|R].
    + rewrite (update_running g dt P R).
      match goal with
      | |- context [fold_left step _ ?u] =>
          destruct (IH u eq_refl R Fr) as [A B]; cbn [timeRemaining] in A, B
      end.
      split.
      * intro L.
        assert (L' : total dts < timeRemaining g - dt) by Lqa.lra.
        destruct (A L') as [A1 A2].
        split; [exact A1|]. unfold run in *. rewrite A2. ring.
      * intro L. apply B. Lqa.lra.
    + rewrite (update_expired g dt P R).
      match goal with
      | |- context [fold_left step _ ?u] =>
          pose proof (updates_when_over dts u) as O; unfold run in O;
          rewrite O by (cbn [state]; discriminate)
      end.
      cbn [state timeRemaining]. split.
      * intro L. exfalso. Lqa.lra.
      * intros _. split; reflexivity.
Qed.

(** X7.  A round lasts 60 seconds of updates, to the millisecond.  After
    [startGame] from the idle or game-over state and a series of updates
    with time steps of at least a millisecond each, the game is still
    being played as long as the steps add up to no more than 59.999 s,
    and the timer is then within a millisecond of 60 minus their sum;
    once the steps add up to 60.001 s the game is over with the timer at
    0, however many updates follow. *)
Theorem round_lasts_sixty_seconds (g : GameManager.t) (dts : list Q) :
  state g <> PLAYING ->
  Forall (fun dt => 1 # 1000 <= dt) dts ->
  (total dts <= 60 - (1 # 1000) ->
   getState (run (startGame g) (map Update dts)) = PLAYING
   /\ 60 - total dts - (1 # 1000)
      <= getTimeRemaining (run (startGame g) (map Update dts))
      <= 60 - total dts + (1 # 1000))
  /\ (60 + (1 # 1000) <= total dts ->
      getState (run (startGame g) (map Update dts)) = GAME_OVER
      /\ getTimeRemaining (run (startGame g) (map Update dts)) = 0).
Proof.
  intros P F. unfold getState, getTimeRemaining.
  assert (F0 : Forall (fun dt => 0 <= dt) dts).
  { eapply Forall_impl; [|exact F]. cbv beta. intros dt H. Lqa.lra. }
  assert (E : startGame g
              = mk PLAYING 60 (ScoreManager.reset (scoreManager g))
                   (DiscManager.start (discManager g)) (onGameOver g)
                   (gameOverFired g)).
  { unfold startGame. rewrite (proj2 (isPlaying_false g) P). reflexivity. }
  rewrite E.
  match goal with
  | |- context [run ?u _] =>
      destruct (updates_of_round dts u eq_refl) as [A B];
        [reflexivity | exact F0 |]
  end.
  cbn [timeRemaining] in A, B. split.
  - intro L. destruct A as [A1 A2]; [Lqa.lra|].
    split; [exact A1|]. rewrite A2. split; Lqa.lra.
  - intro L. apply B. Lqa.lra.
Qed.

Lemma round_lasts_sixty_seconds_witness :
  getState (run (startGame (create ScoreManager.create
                                   (DiscManager.create 800 600 (fun _ => 0%R))))
                (map Update [20; 30; 15; 5])) = GAME_OVER
  /\ getTimeRemaining
       (run (startGame (create ScoreManager.create
                               (DiscManager.create 800 600 (fun _ => 0%R))))
            (map Update [20; 30; 15; 5])) = 0.
Proof.
  refine (proj2 (round_lasts_sixty_seconds
                   (create ScoreManager.create
                           (DiscManager.create 800 600 (fun _ => 0%R)))
                   [20; 30; 15; 5] _ _) _).
  - cbn [create state]. discriminate.
  - repeat (apply Forall_cons; [discriminate|]). apply Forall_nil.
  - discriminate.
Defined.

Lemma step_keeps_managers (g : t) (c : call) :
  c <> StartGame ->
  scoreManager (step g c) = scoreManager g
  /\ discManager (step g c) = discManager g.
Proof.
  intro N. destruct g as [st tr sm dm cb n].
  destruct c as [|dt| | |]; [congruence| | | |]; cbn [step];
    unfold update, endGame, restart, setOnGameOver, isPlaying;
    cbn [state timeRemaining scoreManager discManager onGameOver
         gameOverFired negb];
    destruct st; cbn [negb scoreManager discManager]; auto.
  destruct (Qle_bool (tr - dt) 0); cbn [negb state scoreManager discManager];
    auto.
Qed.

(** X8.  Only [startGame] touches the score manager and the disc
    manager: over any sequence of updates, [endGame], [restart] and
    [setOnGameOver] calls both are left exactly as they were, so the final
    score and best combo stay readable after the game is over and after
    [restart]. *)
Theorem managers_change_only_on_start (g : GameManager.t) (cs : list call) :
  countStarts cs = 0%nat ->
  scoreManager (run g cs) = scoreManager g
  /\ discManager (run g cs) = discManager g
  /\ ScoreManager.getScore (scoreManager (run g cs))
     = ScoreManager.getScore (scoreManager g)
  /\ ScoreManager.getMaxCombo (scoreManager (run g cs))
     = ScoreManager.getMaxCombo (scoreManager g).
Proof.
  revert g. induction cs as [|c cs IH]; intros g H; cbn [run fold_left].
  - auto.
  - assert (N : c <> StartGame) by (intro E; subst c; discriminate H).
    assert (H' : countStarts cs = 0%nat) by (destruct c; cbn in H; congruence).
    destruct (step_keeps_managers g c N) as [A B].
    destruct (IH (step g c) H') as (A' & B' & C' & D'). unfold run in *.
    rewrite A', B', A, B. auto.
Qed.

Lemma managers_change_only_on_start_witness :
  scoreManager
    (run (startGame (create ScoreManager.create
                            (DiscManager.create 800 600 (fun _ => 0%R))))
         [Update 70; EndGame; Restart])
  = scoreManager
      (startGame (create ScoreManager.create
                         (DiscManager.create 800 600 (fun _ => 0%R)))).
Proof.
  refine (proj1 (managers_change_only_on_start _ [Update 70; EndGame; Restart] _)).
  reflexivity.
Defined.

End GameManagerMore.

(** ** DiscManager: difficulty ramp, tiers, ids *)

Module DiscManagerMore.
Import JS JSFacts DiscManager DiscManagerFacts.
Local Open Scope R_scope.

Lemma speedBonus_formula (st : t) :
  getSpeedBonus st = Rmin (IZR (Zfloor (elapsedTime st / 30)) * 15) 80.
Proof. reflexivity. Qed.

Lemma Rmin_mono (a b c : R) : a <= b -> Rmin a c <= Rmin b c.
Proof.
  intro H. unfold Rmin. destruct (Rle_dec a c), (Rle_dec b c); lra.
Qed.

Lemma speedBonus_mono (st st' : t) :
  elapsedTime st <= elapsedTime st' -> getSpeedBonus st <= getSpeedBonus st'.
Proof.
  intro H. rewrite !speedBonus_formula. apply Rmin_mono.
  assert (Z : (Zfloor (elapsedTime st / 30) <= Zfloor (elapsedTime st' / 30))%Z).
  { apply Zfloor_le. lra. }
  apply IZR_le in Z. lra.
Qed.

(** X9.  The speed bonus is a capped staircase of the elapsed time.  For
    a non-negative elapsed time it lies between 0 and 80, it is 0 during
    the first 30 seconds and 80 from 180 seconds on, it is either 80 or a
    multiple of 15, and it never decreases when the elapsed time grows,
    in particular over an update with a non-negative time step. *)
Theorem speed_bonus_staircase (st : DiscManager.t) :
  0 <= elapsedTime st ->
  0 <= getSpeedBonus st <= 80
  /\ (elapsedTime st < 30 -> getSpeedBonus st = 0)
  /\ (180 <= elapsedTime st -> getSpeedBonus st = 80)
  /\ (getSpeedBonus st = 80
      \/ exists n : Z, (0 <= n <= 5)%Z /\ getSpeedBonus st = IZR n * 15)
  /\ (forall st', elapsedTime st <= elapsedTime st' ->
                  getSpeedBonus st <= getSpeedBonus st')
  /\ (forall dt, 0 <= dt -> getSpeedBonus st <= getSpeedBonus (update st dt)).
Proof.
  intro E.
  assert (M1 : forall st', elapsedTime st <= elapsedTime st' ->
                           getSpeedBonus st <= getSpeedBonus st')
    by (intros st' H; apply speedBonus_mono, H).
  assert (M2 : forall dt, 0 <= dt ->
                          getSpeedBonus st <= getSpeedBonus (update st dt)).
  { intros dt D. apply speedBonus_mono.
    destruct (update_spec st dt) as (_ & _ & U & _). rewrite U. lra. }
  revert M1 M2. generalize (update st) as upd. intros upd M1 M2.
  rewrite speedBonus_formula in *.
  pose proof (Zfloor_bound (elapsedTime st / 30)) as [Lo Hi].
  set (n := Zfloor (elapsedTime st / 30)) in *.
  assert (N : (0 <= n)%Z).
  { apply (Zfloor_lub 0). lra. }
  pose proof (IZR_le _ _ N) as N'.
  split; [|split; [|split; [|split; [|split]]]].
  - split.
    + apply Rmin_glb; lra.
    + apply Rmin_r.
  - intro L. assert (Z : n = 0%Z).
    { apply Zfloor_eq. lra. }
    rewrite Z. rewrite Rmin_left; lra.
  - intro L. assert (Z : (6 <= n)%Z).
    { apply (Zfloor_lub 6). lra. }
    apply IZR_le in Z. rewrite Rmin_right; lra.
  - destruct (Z_le_gt_dec n 5) as [S|S].
    + right. exists n. split; [lia|]. apply IZR_le in S.
      rewrite Rmin_left; lra.
    + left. assert (Z : (6 <= n)%Z) by lia. apply IZR_le in Z.
      rewrite Rmin_right; lra.
  - exact M1.
  - exact M2.
Qed.

Lemma speed_bonus_staircase_witness :
  0 <= getSpeedBonus (update (start (create 800 600 (fun _ => 0))) 45) <= 80.
Proof.
  refine (proj1 (speed_bonus_staircase _ _)).
  destruct (update_spec (start (create 800 600 (fun _ => 0))) 45)
    as (_ & _ & U & _).
  rewrite U, start_elapsed. unfold create; cbn [elapsedTime]. lra.
Defined.

(** X10.  The tier drawn from a random value [r]: bronze below 0.55,
    silver from 0.55 to below 0.85, gold from 0.85 to below 1, and bronze
    again, by the fall-through of the loop, from 1 on. *)
Theorem pickTier_thresholds (r : R) :
  (r < 0.55 -> pickTier r = bronze)
  /\ (0.55 <= r < 0.85 -> pickTier r = silver)
  /\ (0.85 <= r < 1 -> pickTier r = gold)
  /\ (1 <= r -> pickTier r = bronze).
Proof.
  unfold pickTier, TIER_WEIGHTS. cbn [pickFrom].
  destruct (Rltb r 0.55) eqn:A, (Rltb r 0.85) eqn:B, (Rltb r 1) eqn:C;
    try apply Rltb_true in A; try apply Rltb_false in A;
    try apply Rltb_true in B; try apply Rltb_false in B;
    try apply Rltb_true in C; try apply Rltb_false in C;
    repeat split; intros; try reflexivity; lra.
Qed.

(** *** Ids *)

Lemma map_id_filter (f : Trophy -> bool) (ts : list Trophy) :
  NoDup (map id ts) -> NoDup (map id (filter f ts)).
Proof.
  induction ts as [|tr ts IH]; cbn [map filter]; intro H; [exact H|].
  inversion H as [|? ? Hn Hd]; subst. destruct (f tr); cbn [map]; auto.
  constructor; [|auto]. intro I. apply Hn.
  apply in_map_iff in I. destruct I as (u & E & I). apply filter_In in I.
  apply in_map_iff. exists u. tauto.
Qed.

Lemma moveTrophy_id (w h dt : R) (tr : Trophy) :
  id (moveTrophy w h dt tr) = id tr.
Proof.
  unfold moveTrophy. destruct (negb (alive tr)); [reflexivity|].
  match goal with |- context [if ?b then _ else _] => destruct b end;
    reflexivity.
Qed.

Lemma killAt_ids (ts : list Trophy) :
  forall i, map id (killAt i ts) = map id ts.
Proof.
  induction ts as [|tr ts IH]; intros [|i]; cbn [killAt map]; auto.
  f_equal. apply IH.
Qed.

Lemma NoDup_snoc (l : list nat) (a : nat) :
  NoDup l -> ~ In a l -> NoDup (l ++ [a]).
Proof.
  induction l as [|b l IH]; cbn [app]; intros N I.
  - constructor; [intros [] | constructor].
  - inversion N as [|? ? Nb Nl]; subst. constructor.
    + intro H. apply in_app_or in H. destruct H as [H|[H|[]]].
      * exact (Nb H).
      * apply I. left. symmetry. exact H.
    + apply IH; [exact Nl|]. intro H. apply I. right. exact H.
Qed.

Lemma spawnTrophy_idsFresh (st : t) : idsFresh st -> idsFresh (spawnTrophy st).
Proof.
  intros [N B]. destruct (spawnTrophy_spec st) as (tr & T & _ & I & _ & _ & _ & X).
  unfold idsFresh. rewrite T, X, map_app. cbn [map]. split.
  - apply NoDup_snoc; [exact N|]. rewrite I. intro Ia.
    apply in_map_iff in Ia. destruct Ia as (u & Eu & Iu).
    rewrite Forall_forall in B. specialize (B u Iu). lia.
  - apply Forall_app. split.
    + eapply Forall_impl; [|exact B]. cbn. intros; lia.
    + constructor; [lia | constructor].
Qed.

Lemma spawnTimes_idsFresh (n : nat) :
  forall st, idsFresh st -> idsFresh (spawnTimes n st).
Proof.
  induction n as [|n IH]; intros st H; cbn [spawnTimes]; [exact H|].
  apply IH, spawnTrophy_idsFresh, H.
Qed.

Lemma replenish_idsFresh (st : t) : idsFresh st -> idsFresh (replenish st).
Proof.
  functional induction (replenish st) as [st Lt IH | st Ge]; intro H.
  - apply IH, spawnTrophy_idsFresh, H.
  - exact H.
Qed.

Lemma applyOp_idsFresh (st : t) (o : op) : idsFresh st -> idsFresh (applyOp st o).
Proof.
  intros [N B]. destruct o as [| |[dt|x y|w h]]; cbn [applyOp step].
  - apply spawnTimes_idsFresh. split; assumption.
  - split; cbn [dispose trophies map]; constructor.
  - unfold update. apply replenish_idsFresh. unfold idsFresh.
    cbn [trophies nextId]. split.
    + apply map_id_filter. rewrite map_map.
      rewrite (map_ext _ id (moveTrophy_id (width st) (height st) dt)).
      exact N.
    + apply Forall_forall. intros tr I. apply filter_In in I.
      destruct I as [I _]. apply in_map_iff in I. destruct I as (u & E & I).
      subst tr. rewrite moveTrophy_id. rewrite Forall_forall in B. apply B, I.
  - unfold checkHit. destruct (scanHit _ _ _ _ _ _) as [[i c]|]; cbn [snd];
      [|split; assumption].
    unfold shatterTrophy, idsFresh. cbn [trophies nextId].
    rewrite killAt_ids. split; [exact N|].
    apply Forall_forall. intros tr I.
    assert (J : In (id tr) (map id (killAt i (trophies st))))
      by (apply in_map; exact I).
    rewrite killAt_ids in J. apply in_map_iff in J.
    destruct J as (u & E & J). rewrite Forall_forall in B.
    rewrite <- E. apply B, J.
  - split; assumption.
Qed.

(** X11.  Trophy ids are unique.  Whatever sequence of [start],
    [dispose], updates, hit tests and resizes a new disc manager goes
    through, no two trophies in its array share an id, and every id in use
    is below the counter the next trophy will take its id from; that
    counter never goes down. *)
Theorem trophy_ids_unique (w h : R) (rnd : nat -> R) (os : list op) :
  NoDup (map id (trophies (runOps (create w h rnd) os)))
  /\ Forall (fun tr => (id tr < nextId (runOps (create w h rnd) os))%nat)
            (trophies (runOps (create w h rnd) os))
  /\ (forall st o, (nextId st <= nextId (applyOp st o))%nat).
Proof.
  assert (G : forall l st, idsFresh st -> idsFresh (runOps st l)).
  { induction l as [|o l IH]; intros st H; cbn [runOps fold_left]; [exact H|].
    apply IH, applyOp_idsFresh, H. }
  assert (F : idsFresh (runOps (create w h rnd) os)).
  { apply G. split; cbn [create trophies map]; constructor. }
  destruct F as [N B]. split; [exact N|]. split; [exact B|].
  assert (Sp : forall n st, (nextId st <= nextId (spawnTimes n st))%nat).
  { induction n as [|n IH]; intro st; cbn [spawnTimes]; [lia|].
    specialize (IH (spawnTrophy st)).
    destruct (spawnTrophy_spec st) as (_ & _ & _ & _ & _ & _ & _ & X). lia. }
  assert (Rp : forall st, (nextId st <= nextId (replenish st))%nat).
  { intro st. functional induction (replenish st) as [st Lt IH | st Ge]; [|lia].
    destruct (spawnTrophy_spec st) as (_ & _ & _ & _ & _ & _ & _ & X). lia. }
  intros st o. destruct o as [| |[dt|x y|w' h']]; cbn [applyOp step].
  - apply Sp.
  - cbn [dispose nextId]. lia.
  - unfold update.
    match goal with |- context [replenish ?u] => specialize (Rp u) end.
    cbn [nextId] in Rp. exact Rp.
  - unfold checkHit. destruct (scanHit _ _ _ _ _ _) as [[i c]|]; cbn [snd];
      [unfold shatterTrophy; cbn [nextId]|]; lia.
  - cbn [resize nextId]. lia.
Qed.

(** *** Hits *)

Lemma inRangeb_true (x y : R) (tr : Trophy) :
  inRangeb x y tr = true <-> inRange x y tr.
Proof.
  unfold inRangeb, inRange. rewrite andb_true_iff, Rltb_true. reflexivity.
Qed.

Lemma scanHit_result (st : t) (x y : R) :
  match scanHit x y (trophies st) 0 None Infinity with
  | Some (i, c) =>
      nth_error (trophies st) i = Some c /\ inRange x y c
      /\ forall tr, In tr (trophies st) -> inRange x y tr ->
                    distTo x y c <= distTo x y tr
  | None => forall tr, In tr (trophies st) -> ~ inRange x y tr
  end.
Proof.
  assert (S0 : scanned x y [] None Infinity).
  { split; [reflexivity|]. intros tr []. }
  destruct (scanHit_scanned x y (trophies st) [] None Infinity S0) as (cd & S).
  cbn [app length] in S.
  destruct (scanHit x y (trophies st) 0 None Infinity) as [[i c]|];
    unfold scanned in S.
  - destruct S as (_ & N & I & Le & _). auto.
  - destruct S as (_ & N). exact N.
Qed.

Lemma killAt_filter (f : Trophy -> bool) (ts : list Trophy) :
  forall i tr,
    nth_error ts i = Some tr -> f tr = true -> f (removeTrophy tr) = false ->
    (length (filter f (killAt i ts)) + 1 = length (filter f ts))%nat.
Proof.
  induction ts as [|t0 ts IH]; intros [|i] tr H A D; cbn in H; try discriminate.
  - inversion H; subst. cbn [killAt filter]. rewrite A, D. cbn [length]. lia.
  - cbn [killAt filter]. specialize (IH i tr H A D).
    destruct (f t0); cbn [length]; lia.
Qed.

Lemma checkHit_cases (st : t) (x y : R) :
  (exists i c,
      checkHit st x y
      = (Some (mkHit (screenX c) (screenY c) (tier c)), shatterTrophy st i c)
      /\ nth_error (trophies st) i = Some c /\ inRange x y c
      /\ forall tr, In tr (trophies st) -> inRange x y tr ->
                    distTo x y c <= distTo x y tr)
  \/ (checkHit st x y = (None, st)
      /\ forall tr, In tr (trophies st) -> ~ inRange x y tr).
Proof.
  pose proof (scanHit_result st x y) as S. unfold checkHit.
  destruct (scanHit x y (trophies st) 0 None Infinity) as [[i c]|].
  - left. exists i, c. destruct S as (N & I & Le). auto.
  - right. auto.
Qed.

(** X12.  A hit is one-shot.  When [checkHit] returns a hit, exactly one
    trophy goes from live to dead: the live count, the list of disc
    positions and the number of live trophies in range of the point each
    drop by one.  When it returns [null] no trophy was in range and
    nothing changes.  So a second test at the same point cannot award the
    same trophy again, and misses when at most one trophy was in range. *)
Theorem hit_is_one_shot (st : DiscManager.t) (x y : R) :
  match fst (checkHit st x y) with
  | Some _ =>
      (liveCount (snd (checkHit st x y)) + 1 = liveCount st)%nat
      /\ (length (getDiscPositions (snd (checkHit st x y))) + 1
          = length (getDiscPositions st))%nat
      /\ (inRangeCount x y (snd (checkHit st x y)) + 1
          = inRangeCount x y st)%nat
  | None => inRangeCount x y st = 0%nat /\ snd (checkHit st x y) = st
  end
  /\ ((inRangeCount x y st <= 1)%nat ->
      fst (checkHit (snd (checkHit st x y)) x y) = None).
Proof.
  assert (Zero : forall u, inRangeCount x y u = 0%nat ->
                           fst (checkHit u x y) = None).
  { intros u Z. unfold checkHit. pose proof (scanHit_result u x y) as S.
    destruct (scanHit x y (trophies u) 0 None Infinity) as [[i c]|];
      [|reflexivity].
    destruct S as (N & I & _). exfalso.
    apply nth_error_In in N. apply inRangeb_true in I.
    assert (J : In c (filter (inRangeb x y) (trophies u)))
      by (apply filter_In; auto).
    unfold inRangeCount in Z. destruct (filter (inRangeb x y) (trophies u));
      [destruct J | discriminate]. }
  destruct (checkHit_cases st x y) as [(i & c & E & N & I & _)|[E S]];
    rewrite E; cbn [fst snd].
  - assert (A : alive c = true) by apply I.
    assert (L : (length (filter alive (killAt i (trophies st))) + 1
                 = length (filter alive (trophies st)))%nat)
      by (apply (killAt_filter alive _ i c N A); reflexivity).
    assert (C : (length (filter (inRangeb x y) (killAt i (trophies st))) + 1
                 = length (filter (inRangeb x y) (trophies st)))%nat).
    { apply (killAt_filter (inRangeb x y) _ i c N).
      - apply inRangeb_true. exact I.
      - reflexivity. }
    assert (K : trophies (shatterTrophy st i c) = killAt i (trophies st))
      by reflexivity.
    unfold liveCount, getDiscPositions, inRangeCount.
    rewrite !length_map, K.
    split; [auto|]. intro One. apply Zero.
    unfold inRangeCount. rewrite K. unfold inRangeCount in One. lia.
  - assert (Z : inRangeCount x y st = 0%nat).
    { unfold inRangeCount.
      destruct (filter (inRangeb x y) (trophies st)) as [|tr l] eqn:F;
        [reflexivity|].
      assert (J : In tr (filter (inRangeb x y) (trophies st)))
        by (rewrite F; left; reflexivity).
      apply filter_In in J. destruct J as [J1 J2].
      apply inRangeb_true in J2. exfalso. exact (S tr J1 J2). }
    split; [auto|]. intros _. apply (Zero st Z).
Qed.

Lemma distTo_zero (x y : R) (tr : Trophy) :
  distTo x y tr = 0 <-> screenX tr = x /\ screenY tr = y.
Proof.
  unfold distTo. split.
  - intro H.
    apply sqrt_eq_0 in H; [|apply Rplus_le_le_0_compat; apply Rle_0_sqr].
    apply (Rplus_sqr_eq_0 (x - screenX tr) (y - screenY tr)) in H.
    destruct H as [X Y]. split; lra.
  - intros [X Y]. rewrite X, Y.
    replace ((x - x) * (x - x) + (y - y) * (y - y)) with 0 by ring.
    apply sqrt_0.
Qed.

Lemma tierRadius_pos (tr : Trophy) : tierRadius tr -> 0 < radius tr.
Proof.
  unfold tierRadius. intro H. rewrite H. destruct (tier tr); cbn; lra.
Qed.

Lemma runOps_tierRadius (os : list op) :
  forall st, Forall tierRadius (trophies st) ->
             Forall tierRadius (trophies (runOps st os)).
Proof.
  induction os as [|o os IH]; intros st H; cbn [runOps fold_left]; [exact H|].
  apply IH. destruct o as [| |c]; cbn [applyOp].
  - unfold start. apply spawnTimes_tierRadius, H.
  - cbn [dispose trophies]. constructor.
  - apply step_tierRadius, H.
Qed.

(** X13.  A shot exactly at a position listed by [getDiscPositions]
    always hits, when the hit radii are positive: [checkHit] at that point
    returns a hit whose position is the point itself.  The radii of a
    disc manager that was created and then only used through its methods
    are always positive. *)
Theorem shot_at_disc_position_hits (st : DiscManager.t) (p : R * R) :
  In p (getDiscPositions st) ->
  Forall (fun tr => 0 < radius tr) (trophies st) ->
  (exists h,
      fst (checkHit st (fst p) (snd p)) = Some h
      /\ hitX h = fst p /\ hitY h = snd p)
  /\ (forall w h rnd os,
        Forall (fun tr => 0 < radius tr)
               (trophies (runOps (create w h rnd) os))).
Proof.
  intros I Pos. split.
  - unfold getDiscPositions in I. apply in_map_iff in I.
    destruct I as (tr & E & I). apply filter_In in I. destruct I as [I A].
    subst p. cbn [fst snd].
    assert (D : distTo (screenX tr) (screenY tr) tr = 0)
      by (apply distTo_zero; auto).
    assert (Rg : inRange (screenX tr) (screenY tr) tr).
    { split; [exact A|]. rewrite D. rewrite Forall_forall in Pos.
      apply Pos, I. }
    destruct (checkHit_cases st (screenX tr) (screenY tr))
      as [(i & c & E & N & Ic & Le)|[E S]].
    + rewrite E. cbn [fst]. eexists. split; [reflexivity|].
      cbn [hitX hitY]. specialize (Le tr I Rg). rewrite D in Le.
      assert (Z : distTo (screenX tr) (screenY tr) c = 0).
      { apply Rle_antisym; [exact Le|]. unfold distTo. apply sqrt_pos. }
      apply distTo_zero in Z. exact Z.
    + exfalso. exact (S tr I Rg).
  - intros w h rnd os.
    eapply Forall_impl; [exact tierRadius_pos|].
    apply runOps_tierRadius. cbn [create trophies]. constructor.
Qed.

Lemma shot_at_disc_position_hits_witness :
  exists h,
    fst (checkHit overlapping 100 0) = Some h /\ hitX h = 100 /\ hitY h = 0.
Proof.
  refine (proj1 (shot_at_disc_position_hits overlapping (100, 0) _ _)).
  - right. left. reflexivity.
  - unfold overlapping; cbn [trophies].
    repeat (apply Forall_cons; [cbn [radius]; lra|]). apply Forall_nil.
Defined.

(** *** Positions *)

Lemma spawnTrophy_frame (st : t) :
  width (spawnTrophy st) = width st /\ height (spawnTrophy st) = height st
  /\ rand (spawnTrophy st) = rand st.
Proof. unfold spawnTrophy. cbn [width height rand]. auto. Qed.

Lemma spawnTrophy_inView (st : t) :
  unitRandom st -> 0 <= width st -> 0 <= height st ->
  exists tr,
    trophies (spawnTrophy st) = trophies st ++ [tr]
    /\ alive tr = true
    /\ inView (width st) (height st) tr.
Proof.
  intros U W H. unfold spawnTrophy. eexists.
  split; [cbn [trophies]; reflexivity|]. split; [reflexivity|].
  unfold inView. cbn [screenX screenY].
  pose proof (U (drawn st + 2)%nat) as [Lo Hi].
  set (r := rand st (drawn st + 2)) in *.
  destruct (Math_floor (rand st (drawn st + 1) * 4)) as [|[[q|q|]|[q|q|]|]|q];
    cbn [fst snd]; repeat split; nra.
Qed.

Lemma replenish_inView (st : t) :
  forall w h,
    width st = w -> height st = h ->
    unitRandom st -> 0 <= w -> 0 <= h ->
    Forall (fun tr => alive tr = true /\ inView w h tr) (trophies st) ->
    Forall (fun tr => alive tr = true /\ inView w h tr)
           (trophies (replenish st)).
Proof.
  functional induction (replenish st) as [st Lt IH | st Ge];
    intros w h Ew Eh U W H F; [|exact F].
  destruct (spawnTrophy_frame st) as (Fw & Fh & Fr).
  apply (IH w h); try congruence.
  - unfold unitRandom. rewrite Fr. exact U.
  - subst w h. destruct (spawnTrophy_inView st U W H) as (tr & T & A & V).
    rewrite T. apply Forall_app. split; [exact F|].
    constructor; [auto | constructor].
Qed.

Lemma moveTrophy_inView (w h dt : R) (tr : Trophy) :
  alive (moveTrophy w h dt tr) = true -> inView w h (moveTrophy w h dt tr).
Proof.
  unfold moveTrophy. destruct (alive tr) eqn:A; cbn [negb].
  - match goal with
    | |- context [if ?b then _ else _] => destruct b eqn:B
    end.
    + cbn [removeTrophy alive]. discriminate.
    + intros _. unfold inView. cbn [screenX screenY].
      apply orb_false_iff in B. destruct B as [B B4].
      apply orb_false_iff in B. destruct B as [B B3].
      apply orb_false_iff in B. destruct B as [B1 B2].
      apply Rltb_false in B1, B2, B3, B4. lra.
  - intro C. congruence.
Qed.

(** X14.  After an update every trophy in the array is live and within
    100 px of the viewport: the ones that moved farther out were removed,
    and the new ones start 60 px outside an edge.  This holds for a
    viewport of non-negative size and random values in [0, 1).  [update]
    does not change the viewport it reads. *)
Theorem trophies_stay_near_viewport (st : DiscManager.t) (dt : R) :
  unitRandom st -> 0 <= width st -> 0 <= height st ->
  Forall (fun tr => alive tr = true /\ inView (width st) (height st) tr)
         (trophies (update st dt))
  /\ width (update st dt) = width st
  /\ height (update st dt) = height st.
Proof.
  intros U W H.
  assert (Fr : forall u,
            width (replenish u) = width u /\ height (replenish u) = height u).
  { intro u. functional induction (replenish u) as [u Lt IH | u Ge]; [|auto].
    destruct (spawnTrophy_frame u) as (Fw & Fh & _).
    destruct IH as [A B]. split; congruence. }
  unfold update.
  match goal with |- context [replenish ?u] => destruct (Fr u) as [Fw Fh] end.
  cbn [width height] in Fw, Fh. split; [|auto].
  apply replenish_inView; try reflexivity; try assumption.
  cbn [trophies]. apply Forall_forall. intros tr I.
  apply filter_In in I. destruct I as [I A]. split; [exact A|].
  apply in_map_iff in I. destruct I as (u & E & _). subst tr.
  apply moveTrophy_inView. exact A.
Qed.

Lemma trophies_stay_near_viewport_witness :
  Forall (fun tr => alive tr = true /\ inView 800 600 tr)
         (trophies (update overlapping 5)).
Proof.
  refine (proj1 (trophies_stay_near_viewport overlapping 5 _ _ _)).
  - intro n. unfold overlapping; cbn [rand]. lra.
  - unfold overlapping; cbn [width]. lra.
  - unfold overlapping; cbn [height]. lra.
Defined.

(** *** Speed *)






(** *** Fragments *)

Lemma updateFragments_fading (dt : R) (fs : list Fragment) :
  0 <= dt -> Forall fading fs ->
  Forall fading (updateFragments dt fs)
  /\ (length (updateFragments dt fs) <= length fs)%nat
  /\ (0.8 <= dt -> updateFragments dt fs = []).
Proof.
  intros D F. induction F as [|f fs Ff _ IH]; cbn [updateFragments fold_right].
  - repeat split; auto.
  - fold (updateFragments dt fs). destruct IH as (A & B & C).
    destruct Ff as [[L0 L1] _].
    destruct (Rleb (life (stepFragment dt f)) 0) eqn:K.
    + repeat split; auto. cbn [length]. lia.
    + apply Rleb_false in K. cbn [stepFragment life] in K.
      split; [|split].
      * constructor; [|exact A]. unfold fading, stepFragment.
        cbn [life opacity]. split; [lra|]. split; [apply Rmax_l|].
        apply Rmax_lub; [lra|]. apply Rmult_le_reg_r with 0.8; [lra|].
        replace ((life f - dt) / 0.8 * 0.8) with (life f - dt) by (field; lra).
        lra.
      * cbn [length]. lia.
      * intro Big. exfalso. lra.
Qed.

Lemma newFragments_fading (pos : Vector3) (total : nat) (rnd : nat -> R) :
  forall n from i, Forall fading (newFragments pos total rnd from i n).
Proof.
  induction n as [|n IH]; intros from i; cbn [newFragments]; constructor.
  - unfold fading, newFragment. cbn [life opacity]. lra.
  - apply IH.
Qed.

Lemma applyOp_fading (st : t) (o : op) :
  forwardOp o -> Forall fading (fragments st) ->
  Forall fading (fragments (applyOp st o)).
Proof.
  intros Fw F. destruct o as [| |[dt|x y|w h]]; cbn [applyOp step forwardOp] in *.
  - unfold start.
    destruct (spawnTimes_spec TARGET_COUNT st) as (new & _ & _ & _ & E & _).
    rewrite E. exact F.
  - cbn [dispose fragments]. constructor.
  - destruct (update_spec st dt) as (_ & _ & _ & E). rewrite E.
    apply updateFragments_fading; assumption.
  - unfold checkHit. destruct (scanHit _ _ _ _ _ _) as [[i c]|]; cbn [snd];
      [|exact F].
    unfold shatterTrophy. cbn [fragments]. apply Forall_app.
    split; [exact F | apply newFragments_fading].
  - exact F.
Qed.

Lemma updateFragments_filter (dt : R) (fs : list Fragment) :
  updateFragments dt fs
  = map (stepFragment dt) (filter (fun f => Rltb dt (life f)) fs).
Proof.
  induction fs as [|f fs IH]; cbn [updateFragments fold_right filter map];
    [reflexivity|].
  fold (updateFragments dt fs). rewrite IH.
  destruct (Rleb (life (stepFragment dt f)) 0) eqn:K;
    cbn [stepFragment life] in K.
  - apply Rleb_true in K.
    assert (N : Rltb dt (life f) = false) by (apply Rltb_false; lra).
    rewrite N. reflexivity.
  - apply Rleb_false in K.
    assert (Y : Rltb dt (life f) = true) by (apply Rltb_true; lra).
    rewrite Y. reflexivity.
Qed.

Lemma run_updates_fragments (dts : list R) :
  forall st, fragments (run st (map Update dts)) = aged dts (fragments st).
Proof.
  induction dts as [|dt dts IH]; intro st;
    cbn [map run fold_left step aged]; [reflexivity|].
  destruct (update_spec st dt) as (_ & _ & _ & E). rewrite <- E.
  apply IH.
Qed.

Lemma totalTime_nonneg (dts : list R) :
  Forall (fun dt => 0.001 <= dt) dts -> 0 <= totalTime dts.
Proof.
  induction 1 as [|dt dts H _ IH]; cbn [totalTime]; lra.
Qed.

(** Fragments with less life than the frames take are all removed. *)
Lemma aged_out (dts : list R) :
  forall fs,
    Forall (fun f => 0 < life f < totalTime dts) fs -> aged dts fs = [].
Proof.
  induction dts as [|dt dts IH]; intros fs F; cbn [aged fold_left totalTime] in *.
  - destruct fs as [|f fs]; [reflexivity|].
    inversion F as [|? ? H _]; subst. lra.
  - apply IH. rewrite updateFragments_filter.
    apply Forall_forall. intros f' I.
    apply in_map_iff in I. destruct I as (f & E & I). subst f'.
    apply filter_In in I. destruct I as [I K]. apply Rltb_true in K.
    rewrite Forall_forall in F. specialize (F f I).
    cbn [stepFragment life]. lra.
Qed.

(** Fragments with more life than the frames take are all kept. *)
Lemma aged_kept (dts : list R) :
  Forall (fun dt => 0.001 <= dt) dts ->
  forall fs,
    Forall fading fs ->
    Forall (fun f => totalTime dts < life f) fs ->
    length (aged dts fs) = length fs /\ Forall fading (aged dts fs).
Proof.
  induction 1 as [|dt dts D Ds IH]; intros fs Fd F;
    cbn [aged fold_left totalTime] in *; [auto|].
  pose proof (totalTime_nonneg dts Ds) as N.
  assert (All : filter (fun f => Rltb dt (life f)) fs = fs).
  { clear Fd. induction F as [|f fs H _ IHf]; cbn [filter]; [reflexivity|].
    assert (Y : Rltb dt (life f) = true) by (apply Rltb_true; lra).
    rewrite Y, IHf. reflexivity. }
  destruct (IH (updateFragments dt fs)) as [L A].
  - apply updateFragments_fading; [lra | exact Fd].
  - rewrite updateFragments_filter, All. apply Forall_forall. intros f' I.
    apply in_map_iff in I. destruct I as (f & E & I). subst f'.
    rewrite Forall_forall in F. specialize (F f I).
    cbn [stepFragment life]. lra.
  - split; [|exact A].
    fold (aged dts (updateFragments dt fs)). rewrite L.
    rewrite updateFragments_filter, All. apply length_map.
Qed.

Lemma newFragments_new (pos : Vector3) (total : nat) (rnd : nat -> R) :
  forall n from i,
    length (newFragments pos total rnd from i n) = n
    /\ Forall (fun f => life f = 0.8 /\ opacity f = 1)
              (newFragments pos total rnd from i n).
Proof.
  induction n as [|n IH]; intros from i; cbn [newFragments length].
  - split; [reflexivity | constructor].
  - destruct (IH (from + 4)%nat (S i)) as [L F].
    split; [rewrite L; reflexivity|].
    constructor; [|exact F]. unfold newFragment. cbn [life opacity]. auto.
Qed.

(** The shot at (45,0) shatters the bronze trophy, the first of the two. *)
Lemma shattered_fragments :
  fragments shattered
  = newFragments (screenToWorld overlapping 0 0) 8 (rand overlapping) 12 0 8.
Proof.
  assert (Lt : forall a b, a < b -> Rltb a b = true)
    by (intros a b H; apply Rltb_true; exact H).
  assert (Ge : forall a b, b <= a -> Rltb a b = false)
    by (intros a b H; apply Rltb_false; exact H).
  unfold shattered, checkHit.
  assert (S : scanHit 45 0 (trophies overlapping) 0 None Infinity
              = Some (0%nat, mkTrophy 0 (vec2 10 0) true 0 0 90 bronze)).
  { unfold overlapping.
    cbn [trophies scanHit alive negb screenX screenY radius].
    rewrite !sqrt_on_axis.
    rewrite (Rabs_pos_eq (45 - 0)), (Rabs_left1 (45 - 100)) by lra.
    cbn [ltExt andb].
    rewrite (Lt (45 - 0) 90), (Lt (- (45 - 100)) 80) by lra.
    cbn [ltExt andb].
    rewrite (Ge (- (45 - 100)) (45 - 0)) by lra.
    reflexivity. }
  rewrite S. cbn [snd]. unfold shatterTrophy.
  cbn [fragments tier fragCountOf screenX screenY].
  reflexivity.
Qed.

(** X16.  Fragments fade out within 0.8 seconds of updates.  A fragment
    starts with a life of 0.8 and an opacity of 1.  An update takes its
    time step off the life of every fragment and keeps, in order, the
    fragments whose life was longer than the step; a step of 0.8 s or
    more removes them all.  So, for time steps of at least a millisecond
    each: once the steps add up to 0.801 s no fragment that was there is
    left, and as long as they add up to a millisecond less than the
    shortest life every fragment is still there, with a life in (0, 0.8]
    and an opacity in [0, 1].  Every fragment of a disc manager that was
    created and then used through its methods, with no negative time
    step, has such a life and opacity. *)
Theorem fragments_fade_out (st : DiscManager.t) (dts : list R) :
  Forall fading (fragments st) ->
  Forall (fun dt => 0.001 <= dt) dts ->
  (forall dt,
      fragments (update st dt)
      = map (stepFragment dt)
            (filter (fun f => Rltb dt (life f)) (fragments st)))
  /\ (forall dt, 0.8 <= dt -> fragments (update st dt) = [])
  /\ (0.801 <= totalTime dts -> fragments (run st (map Update dts)) = [])
  /\ (Forall (fun f => totalTime dts + 0.001 <= life f) (fragments st) ->
      length (fragments (run st (map Update dts))) = length (fragments st)
      /\ Forall fading (fragments (run st (map Update dts))))
  /\ (forall x y, exists new,
        fragments (snd (checkHit st x y)) = fragments st ++ new
        /\ Forall (fun f => life f = 0.8 /\ opacity f = 1) new)
  /\ (forall w h rnd os, Forall forwardOp os ->
        Forall fading (fragments (runOps (create w h rnd) os))).
Proof.
  intros F D. split; [|split; [|split; [|split; [|split]]]].
  - intro dt. destruct (update_spec st dt) as (_ & _ & _ & E).
    rewrite E. apply updateFragments_filter.
  - intros dt Big. destruct (update_spec st dt) as (_ & _ & _ & E).
    rewrite E. apply updateFragments_fading; [lra | exact F | exact Big].
  - intro T. rewrite run_updates_fragments. apply aged_out.
    eapply Forall_impl; [|exact F]. cbv beta. intros f [[L0 L1] _]. lra.
  - intro K. rewrite run_updates_fragments. apply aged_kept; [exact D | exact F |].
    eapply Forall_impl; [|exact K]. cbv beta. intros f L. lra.
  - intros x y. unfold checkHit.
    destruct (scanHit _ _ _ _ _ _) as [[i c]|]; cbn [snd].
    + unfold shatterTrophy. cbn [fragments]. eexists. split; [reflexivity|].
      apply newFragments_new.
    + exists []. rewrite app_nil_r. split; [reflexivity | constructor].
  - intros w h rnd os Fw.
    assert (G : forall l s, Forall forwardOp l -> Forall fading (fragments s) ->
                            Forall fading (fragments (runOps s l))).
    { induction l as [|o l IH]; intros s Fl Fs; cbn [runOps fold_left];
        [exact Fs|].
      inversion Fl as [|? ? Fo Fr]; subst.
      apply IH; [exact Fr|]. apply applyOp_fading; assumption. }
    apply G; [exact Fw|]. cbn [create fragments]. constructor.
Qed.

Lemma fragments_fade_out_witness :
  length (fragments shattered) = 8%nat
  /\ fragments
       (run shattered
            (map Update [0.1; 0.1; 0.1; 0.1; 0.1; 0.1; 0.1; 0.1; 0.1]))
     = [].
Proof.
  split.
  - rewrite shattered_fragments. apply newFragments_new.
  - refine (proj1 (proj2 (proj2 (fragments_fade_out shattered
              [0.1; 0.1; 0.1; 0.1; 0.1; 0.1; 0.1; 0.1; 0.1] _ _))) _).
    + rewrite shattered_fragments. apply newFragments_fading.
    + repeat (apply Forall_cons; [lra|]). apply Forall_nil.
    + cbn [totalTime]. lra.
Defined.

End DiscManagerMore.

(** ** ShootingSystem: missing input, bounded pull *)

Module ShootingSystemMore.
Import JS JSFacts ShootingSystem ShootingSystemFacts.
Local Open Scope R_scope.

(** X17.  Without a raw aim or without a hand base, [update] returns
    [null] and hides the crosshair and the laser line; the last aim
    position and the lock flag stay as they were. *)
Theorem update_without_hand (s : ShootingSystem.t)
    (rawAim handBase : option ScreenPosition)
    (discPositions : list ScreenPosition) :
  rawAim = None \/ handBase = None ->
  fst (update s rawAim handBase discPositions) = None
  /\ crosshairVisible (snd (update s rawAim handBase discPositions)) = false
  /\ laserVisible (snd (update s rawAim handBase discPositions)) = false
  /\ getAimPosition (snd (update s rawAim handBase discPositions))
     = getAimPosition s
  /\ isTargetLocked (snd (update s rawAim handBase discPositions))
     = isTargetLocked s
  /\ snd (update s rawAim handBase discPositions) = hide s.
Proof.
  intros [E|E]; subst; unfold update, hide, getAimPosition, isTargetLocked;
    try (destruct rawAim); try (destruct handBase);
    cbn [fst snd crosshairVisible laserVisible currentAim isLocked];
    repeat split.
Qed.

Lemma update_without_hand_witness :
  fst (update create (Some (pos 10 20)) None [pos 10 20]) = None.
Proof.
  refine (proj1 (update_without_hand create (Some (pos 10 20)) None
                   [pos 10 20] _)).
  right. reflexivity.
Defined.



End ShootingSystemMore.

(** ** GestureDetector: angle, pistol shape, projection, fire rate *)

Module GestureDetectorMore.
Import JS JSFacts GestureDetector GestureDetectorFacts.
Local Open Scope R_scope.

(** X20.  The joint angle is always between 0 and 180 degrees, and it
    does not depend on the order of the two outer points. *)
Theorem angle_range_and_symmetry (a b c : HandLandmark) :
  0 <= angleAtJoint a b c <= 180
  /\ angleAtJoint a b c = angleAtJoint c b a.
Proof.
  split.
  - unfold angleAtJoint. cbv zeta.
    match goal with |- context [if ?t then _ else _] => destruct t end;
      [lra|].
    match goal with |- context [acos ?u] => pose proof (acos_bound u) as [Lo Hi] end.
    pose proof PI_RGT_0 as P.
    assert (K : 0 < 180 / PI) by (apply Rdiv_lt_0_compat; lra).
    split.
    + apply Rmult_le_pos; lra.
    + replace 180 with (PI * (180 / PI)) at 2 by (field; lra).
      apply Rmult_le_compat_r; lra.
  - unfold angleAtJoint. cbv zeta. cbn [x y z].
    rewrite orb_comm.
    replace ((x c - x b) * (x a - x b) + (y c - y b) * (y a - y b)
             + (z c - z b) * (z a - z b))
      with ((x a - x b) * (x c - x b) + (y a - y b) * (y c - y b)
            + (z a - z b) * (z c - z b)) by ring.
    rewrite (Rmult_comm (sqrt ((x c - x b) ^ 2 + (y c - y b) ^ 2
                               + (z c - z b) ^ 2))).
    reflexivity.
Qed.

Lemma angle_degenerate (a b c : HandLandmark) :
  a = b \/ c = b -> angleAtJoint a b c = 180.
Proof.
  intro H. unfold angleAtJoint. cbv zeta. cbn [x y z].
  assert (Z : forall p : HandLandmark,
            sqrt ((x p - x p) ^ 2 + (y p - y p) ^ 2 + (z p - z p) ^ 2) = 0).
  { intro p.
    replace ((x p - x p) ^ 2 + (y p - y p) ^ 2 + (z p - z p) ^ 2) with 0
      by ring.
    apply sqrt_0. }
  assert (T : Rltb 0 0.0001 = true) by (apply Rltb_true; lra).
  destruct H as [H|H]; subst.
  - rewrite Z, T. reflexivity.
  - rewrite Z, T, orb_true_r. reflexivity.
Qed.

(** X21.  Degenerate thumb geometry is harmless: when the thumb's MCP
    joint or its tip coincides with the IP joint, the angle reads 180
    degrees and the frame does not fire, whatever the cooldown state. *)
Theorem coinciding_thumb_never_fires (s : GestureDetector.t)
    (l : list HandLandmark) (w h now : R) :
  (21 <= length l)%nat ->
  at_ l 2 = at_ l 3 \/ at_ l 4 = at_ l 3 ->
  thumbAngleOf l = 180
  /\ triggered (fst (detect s (Some l) w h now)) = false
  /\ lastShotTime (snd (detect s (Some l) w h now)) = lastShotTime s.
Proof.
  intros L D.
  assert (A : thumbAngleOf l = 180) by (apply angle_degenerate; exact D).
  assert (T : triggered (fst (detect s (Some l) w h now)) = false).
  { apply not_true_is_false. intro B.
    apply (triggered_iff s l w h now L) in B. lra. }
  destruct (detect_triggered s l w h now L) as [_ S].
  rewrite S, T. auto.
Qed.

Lemma coinciding_thumb_never_fires_witness :
  thumbAngleOf pointHand = 180
  /\ triggered (fst (detect create (Some pointHand) 800 600 5000)) = false.
Proof.
  assert (L : (21 <= length pointHand)%nat)
    by (unfold pointHand; rewrite repeat_length; lia).
  destruct (coinciding_thumb_never_fires create pointHand 800 600 5000 L)
    as (A & B & _).
  - left. reflexivity.
  - split; assumption.
Defined.

Lemma detect_pistol (s : t) (l : list HandLandmark) (w h now : R) :
  (21 <= length l)%nat ->
  isPistol (fst (detect s (Some l) w h now))
  = Rltb (dist3D (at_ l 6) (at_ l 0)) (dist3D (at_ l 8) (at_ l 0))
    && (1 <=? (if Rltb (dist3D (at_ l 12) (at_ l 0))
                       (dist3D (at_ l 10) (at_ l 0) * 1.15) then 1 else 0)
              + (if Rltb (dist3D (at_ l 16) (at_ l 0))
                         (dist3D (at_ l 14) (at_ l 0) * 1.15) then 1 else 0)
              + (if Rltb (dist3D (at_ l 20) (at_ l 0))
                         (dist3D (at_ l 18) (at_ l 0) * 1.15) then 1 else 0))%nat.
Proof.
  intro L. unfold detect. apply Nat.ltb_ge in L. rewrite L.
  cbn [fst isPistol]. reflexivity.
Qed.

(** X22.  The pistol shape.  On a full hand the gesture is a pistol
    exactly when the index fingertip is farther from the wrist than the
    index PIP joint and at least one of the middle, ring and pinky
    fingertips is closer to the wrist than 1.15 times the distance of its
    PIP joint.  The verdict does not depend on the detector's state, the
    clock or the screen size; an index finger whose tip sits on its PIP
    joint is never a pistol. *)
Theorem pistol_shape (s : GestureDetector.t) (l : list HandLandmark)
    (w h now : R) :
  (21 <= length l)%nat ->
  (isPistol (fst (detect s (Some l) w h now)) = true
   <-> dist3D (at_ l 6) (at_ l 0) < dist3D (at_ l 8) (at_ l 0)
       /\ (dist3D (at_ l 12) (at_ l 0) < dist3D (at_ l 10) (at_ l 0) * 1.15
           \/ dist3D (at_ l 16) (at_ l 0) < dist3D (at_ l 14) (at_ l 0) * 1.15
           \/ dist3D (at_ l 20) (at_ l 0) < dist3D (at_ l 18) (at_ l 0) * 1.15))
  /\ (forall s' w' h' now',
        isPistol (fst (detect s' (Some l) w' h' now'))
        = isPistol (fst (detect s (Some l) w h now)))
  /\ (at_ l 8 = at_ l 6 ->
      isPistol (fst (detect s (Some l) w h now)) = false).
Proof.
  intro L. split; [|split].
  - rewrite (detect_pistol s l w h now L), andb_true_iff, Rltb_true.
    rewrite Nat.leb_le, <- !Rltb_true.
    destruct (Rltb (dist3D (at_ l 12) (at_ l 0)) _),
      (Rltb (dist3D (at_ l 16) (at_ l 0)) _),
      (Rltb (dist3D (at_ l 20) (at_ l 0)) _); cbn [Nat.add];
      intuition (try discriminate; try lia).
  - intros s' w' h' now'. rewrite !detect_pistol by exact L. reflexivity.
  - intro E. rewrite (detect_pistol s l w h now L), E.
    rewrite (proj2 (Rltb_false _ _)) by apply Rle_refl. reflexivity.
Qed.

Lemma pistol_shape_witness :
  isPistol (fst (detect create (Some pointHand) 800 600 0)) = false.
Proof.
  assert (L : (21 <= length pointHand)%nat)
    by (unfold pointHand; rewrite repeat_length; lia).
  refine (proj2 (proj2 (pistol_shape create pointHand 800 600 0 L)) _).
  reflexivity.
Defined.

(** X23.  The aim point is the index fingertip mirrored onto the screen.
    On a full hand both points are returned; with the fingertip's
    normalised coordinates in [0, 1] and a screen of non-negative size the
    aim point lies on the screen, at [width - x * width] horizontally, so
    that a fingertip further right in the camera image aims further
    left. *)
Theorem aim_point_on_screen (s : GestureDetector.t) (l : list HandLandmark)
    (w h now : R) :
  (21 <= length l)%nat ->
  0 <= x (at_ l 8) <= 1 -> 0 <= y (at_ l 8) <= 1 -> 0 <= w -> 0 <= h ->
  exists aim base,
    aimPosition (fst (detect s (Some l) w h now)) = Some aim
    /\ handBase (fst (detect s (Some l) w h now)) = Some base
    /\ 0 <= sx aim <= w /\ 0 <= sy aim <= h
    /\ sx aim = w - x (at_ l 8) * w
    /\ sy aim = y (at_ l 8) * h
    /\ base = pos ((1 - x (at_ l 0)) * w) (y (at_ l 0) * h).
Proof.
  intros L X Y W H. unfold detect. apply Nat.ltb_ge in L. rewrite L.
  cbn [fst aimPosition handBase]. eexists. eexists.
  split; [reflexivity|]. split; [reflexivity|]. cbn [sx sy].
  repeat split; nra.
Qed.

Lemma aim_point_on_screen_witness :
  exists aim base,
    aimPosition (fst (detect create (Some bentThumbHand) 800 600 0)) = Some aim
    /\ handBase (fst (detect create (Some bentThumbHand) 800 600 0)) = Some base
    /\ 0 <= sx aim <= 800 /\ 0 <= sy aim <= 600.
Proof.
  assert (L : (21 <= length bentThumbHand)%nat)
    by (unfold bentThumbHand; rewrite length_app, repeat_length; cbn; lia).
  destruct (aim_point_on_screen create bentThumbHand 800 600 0 L)
    as (aim & base & A & B & C & D & _).
  - unfold bentThumbHand, at_; cbn [nth app repeat x]. lra.
  - unfold bentThumbHand, at_; cbn [nth app repeat y]. lra.
  - lra.
  - lra.
  - exists aim, base. auto.
Defined.

(** *** Fire rate *)

Lemma detect_shot (s : t) (lms : option (list HandLandmark)) (w h now : R) :
  (triggered (fst (detect s lms w h now)) = true ->
   SHOOT_COOLDOWN < now - lastShotTime s
   /\ lastShotTime (snd (detect s lms w h now)) = now)
  /\ (triggered (fst (detect s lms w h now)) = false ->
      lastShotTime (snd (detect s lms w h now)) = lastShotTime s).
Proof.
  destruct lms as [l|]; [destruct (Nat.ltb_spec (length l) 21) as [Sh|Fu]|].
  - rewrite (detect_no_hand s (Some l) w h now)
      by (right; exists l; auto).
    cbn [fst snd noGesture triggered lastShotTime]. split; [discriminate|auto].
  - destruct (detect_triggered s l w h now Fu) as [_ S].
    pose proof (triggered_iff s l w h now Fu) as T. split; intro B.
    + rewrite S, B. split; [|reflexivity]. apply T in B.
      unfold SHOOT_COOLDOWN. tauto.
    + rewrite S, B. reflexivity.
  - rewrite (detect_no_hand s None w h now) by (left; reflexivity).
    cbn [fst snd noGesture triggered lastShotTime]. split; [discriminate|auto].
Qed.

Lemma last_after (l : list R) (a d : R) : last (a :: l) d = last l a.
Proof.
  revert a d. induction l as [|b l IH]; intros a d; [reflexivity|].
  change (last (a :: b :: l) d) with (last (b :: l) d).
  rewrite !IH. reflexivity.
Qed.

Lemma spaced_count (times : list R) :
  forall last T,
    spaced last times -> (forall t0, In t0 times -> t0 <= T) ->
    times = [] \/ INR (length times) * 500 < T - last.
Proof.
  induction times as [|t0 rest IH]; intros last T S B; [left; reflexivity|].
  right. destruct S as [S0 Sr].
  assert (B0 : t0 <= T) by (apply B; left; reflexivity).
  assert (Br : forall u, In u rest -> u <= T)
    by (intros u I; apply B; right; exact I).
  unfold SHOOT_COOLDOWN in S0.
  destruct (IH t0 T Sr Br) as [E|C].
  - subst rest. cbn [length INR]. lra.
  - change (length (t0 :: rest)) with (Datatypes.S (length rest)).
    rewrite S_INR. lra.
Qed.

(** X24.  The trigger is rate-limited over any sequence of frames, with
    or without a hand, whatever the clock does: every fire comes more
    than 500 ms after the fire before it, and the first more than 500 ms
    after the last-shot time the detector started with.  So the fires up
    to a time [T] number fewer than [(T - last) / 500], and the last-shot
    time is always the time of the most recent fire. *)
Theorem fires_are_spaced (s : GestureDetector.t) (w h : R)
    (frames : list Frame) :
  spaced (lastShotTime s) (fireTimes s w h frames)
  /\ (forall T,
        (forall t0, In t0 (fireTimes s w h frames) -> t0 <= T) ->
        fireTimes s w h frames = []
        \/ INR (length (fireTimes s w h frames)) * 500 < T - lastShotTime s)
  /\ lastShotTime (afterFrames s w h frames)
     = last (fireTimes s w h frames) (lastShotTime s).
Proof.
  assert (G : forall fs u,
            spaced (lastShotTime u) (fireTimes u w h fs)
            /\ lastShotTime (afterFrames u w h fs)
               = last (fireTimes u w h fs) (lastShotTime u)).
  { induction fs as [|f fs IH]; intro u; cbn [fireTimes afterFrames spaced last].
    - auto.
    - destruct (detect_shot u (frameLandmarks f) w h (frameNow f)) as [Y N].
      destruct (IH (snd (detect u (frameLandmarks f) w h (frameNow f))))
        as [Sp La].
      destruct (triggered (fst (detect u (frameLandmarks f) w h (frameNow f)))).
      + destruct (Y eq_refl) as [C E]. rewrite E in Sp, La.
        cbn [spaced]. split; [auto|]. rewrite La.
        symmetry. apply last_after.
      + rewrite (N eq_refl) in Sp, La. auto. }
  destruct (G frames s) as [Sp La].
  split; [exact Sp|]. split; [|exact La].
  intros T B. apply spaced_count; assumption.
Qed.

End GestureDetectorMore.

(** ** The application: rounds, score freeze, start gesture *)

Module AppFacts.
Import App.

Lemma shoot_frame (a : t) (x y : R) (n1 n2 : Q) :
  stateOf (shoot a x y n1 n2) = stateOf a
  /\ GameManager.timeRemaining (gameManager (shoot a x y n1 n2))
     = GameManager.timeRemaining (gameManager a)
  /\ discsOf (shoot a x y n1 n2) = snd (DiscManager.checkHit (discsOf a) x y)
  /\ tapPosition (shoot a x y n1 n2) = tapPosition a
  /\ pistolHeldFrames (shoot a x y n1 n2) = pistolHeldFrames a.
Proof.
  unfold shoot, stateOf, discsOf, withManagers, Main.shoot.
  cbn [gameManager GameManager.state GameManager.timeRemaining
       GameManager.discManager tapPosition pistolHeldFrames].
  destruct (DiscManager.checkHit _ x y) as [[hit|] dm']; cbn [fst snd]; auto.
Qed.

Lemma shoot_trophies (a : t) (x y : R) (n1 n2 : Q) :
  length (DiscManager.trophies (discsOf (shoot a x y n1 n2)))
  = length (DiscManager.trophies (discsOf a)).
Proof.
  destruct (shoot_frame a x y n1 n2) as (_ & _ & D & _). rewrite D.
  apply DiscManagerFacts.checkHit_length.
Qed.

Lemma update_state (g : GameManager.t) (dt : Q) :
  GameManager.state g = GameManager.PLAYING ->
  GameManager.state (GameManager.update g dt) <> GameManager.IDLE
  /\ GameManager.discManager (GameManager.update g dt)
     = GameManager.discManager g
  /\ GameManager.scoreManager (GameManager.update g dt)
     = GameManager.scoreManager g.
Proof.
  intro P. destruct g as [st tr sm dm cb n]. cbn [GameManager.state] in P.
  subst st. unfold GameManager.update, GameManager.endGame, GameManager.isPlaying.
  cbn [GameManager.state negb GameManager.timeRemaining GameManager.scoreManager
       GameManager.discManager GameManager.onGameOver GameManager.gameOverFired].
  destruct (Qle_bool (tr - dt) 0);
    cbn [GameManager.state negb GameManager.discManager GameManager.scoreManager];
    repeat split; discriminate.
Qed.

Lemma start_from_empty (dm : DiscManager.t) :
  DiscManager.trophies dm = [] ->
  length (DiscManager.trophies (DiscManager.start dm)) = DiscManager.TARGET_COUNT.
Proof.
  intro E.
  assert (A : Forall (fun tr => DiscManager.alive tr = true)
                     (DiscManager.trophies dm)) by (rewrite E; constructor).
  destruct (DiscManagerFacts.start_live dm A) as (_ & L & _).
  rewrite L, E. reflexivity.
Qed.

Lemma startGame_populated (g : GameManager.t) :
  GameManager.state g = GameManager.IDLE ->
  DiscManager.trophies (GameManager.discManager g) = [] ->
  GameManager.state (GameManager.startGame g) = GameManager.PLAYING
  /\ length (DiscManager.trophies
               (GameManager.discManager (GameManager.startGame g)))
     = DiscManager.TARGET_COUNT.
Proof.
  intros I E. unfold GameManager.startGame, GameManager.isPlaying. rewrite I.
  cbn [GameManager.state GameManager.discManager].
  split; [reflexivity | apply start_from_empty, E].
Qed.

Lemma pointerdown_populated (a : t) (x y : R) :
  populated a -> populated (pointerdown a x y).
Proof.
  unfold populated, pointerdown. intro P.
  destruct (stateOf a) eqn:S; unfold stateOf, discsOf in *.
  - destruct (startGame_populated (gameManager a) S P) as [S' L].
    unfold withGameManager. cbn [gameManager]. rewrite S'. exact L.
  - cbn [gameManager]. rewrite S. exact P.
  - unfold withManagers, GameManager.restart.
    cbn [gameManager GameManager.state GameManager.discManager
         DiscManager.dispose DiscManager.trophies]. reflexivity.
Qed.

Lemma resize_populated (a : t) (w h : R) : populated a -> populated (resize a w h).
Proof.
  unfold populated, resize, withGameManager, withManagers, stateOf, discsOf.
  cbn [gameManager GameManager.state GameManager.discManager
       DiscManager.resize DiscManager.trophies]. auto.
Qed.

Lemma frame_populated (a : t) (f : Frame) : populated a -> populated (frame a f).
Proof.
  unfold populated. intro P. unfold frame. cbv zeta.
  destruct (stateOf a) eqn:S.
  - (* idle *)
    unfold stateOf, discsOf in *. cbn [gameManager].
    match goal with
    | |- context [(8 <=? ?hd)%Z] => destruct (8 <=? hd)%Z
    end.
    + destruct (startGame_populated (gameManager a) S P) as [S' L].
      rewrite S'. exact L.
    + rewrite S. exact P.
  - (* playing *)
    set (sh := ShootingSystem.update _ _ _ _).
    set (det := GestureDetector.detect _ _ _ _ _).
    set (aimed := match GestureDetector.aimPosition (fst det) with
                  | Some p => Some p | None => lastAim a end).
    set (a0 := mk (gameManager a) (snd det) (snd sh) (tapPosition a) aimed
                  (nowLoop f) (Datatypes.S (frameCount a)) (pistolHeldFrames a)
                  (hitStopUntil a)).
    assert (I0 : stateOf a0 = GameManager.PLAYING
                 /\ length (DiscManager.trophies (discsOf a0))
                    = DiscManager.TARGET_COUNT)
      by (split; assumption).
    assert (Sh : forall b x y n1 n2,
              stateOf b = GameManager.PLAYING
              /\ length (DiscManager.trophies (discsOf b))
                 = DiscManager.TARGET_COUNT ->
              stateOf (shoot b x y n1 n2) = GameManager.PLAYING
              /\ length (DiscManager.trophies (discsOf (shoot b x y n1 n2)))
                 = DiscManager.TARGET_COUNT).
    { intros b x y n1 n2 [B1 B2].
      destruct (shoot_frame b x y n1 n2) as (E & _).
      rewrite E, shoot_trophies. auto. }
    set (a1 := if GestureDetector.triggered (fst det) then _ else a0).
    assert (I1 : stateOf a1 = GameManager.PLAYING
                 /\ length (DiscManager.trophies (discsOf a1))
                    = DiscManager.TARGET_COUNT).
    { unfold a1. destruct (GestureDetector.triggered (fst det)); [|exact I0].
      destruct (fst sh) as [p|]; [apply Sh, I0|].
      destruct aimed as [p|]; [apply Sh, I0 | exact I0]. }
    clearbody a1. 
    set (a2 := match tapPosition a1 with Some _ => _ | None => a1 end).
    assert (I2 : stateOf a2 = GameManager.PLAYING
                 /\ length (DiscManager.trophies (discsOf a2))
                    = DiscManager.TARGET_COUNT).
    { unfold a2. destruct (tapPosition a1) as [tap|]; [|exact I1].
      destruct (Sh a1 (fst tap) (snd tap) (nowHit2 f) (nowStop2 f) I1)
        as [T1 T2].
      unfold stateOf, discsOf in *. cbn [gameManager]. auto. }
    clearbody a2. destruct I2 as [S2 L2].
    destruct (negb (Qle_bool (hitStopUntil a) (nowFrozen f))).
    + rewrite S2. exact L2.
    + unfold stateOf, discsOf in S2, L2.
      match goal with
      | |- context [GameManager.update (gameManager a2) ?d] =>
          destruct (update_state (gameManager a2) d S2) as (N & D & _);
          set (g := GameManager.update (gameManager a2) d) in *
      end.
      unfold withGameManager, withManagers, stateOf, discsOf.
      cbn [gameManager GameManager.state GameManager.discManager].
      assert (U : length (DiscManager.trophies
                            (DiscManager.update (GameManager.discManager g)
                               (Q2R (Math_min ((nowLoop f - lastTime a) / 1000)
                                              (1 # 10)))))
                  = DiscManager.TARGET_COUNT).
      { apply DiscManagerFacts.update_population. rewrite D, L2. apply Nat.le_refl. }
      destruct (GameManager.state g); [congruence | exact U | exact U].
  - (* game over *)
    unfold stateOf, discsOf in *. cbn [gameManager]. rewrite S. exact P.
Qed.

(** X25.  Through the entry point a round always starts on an empty disc
    manager.  From [init], under any sequence of pointer events, frames
    and window resizes, the disc manager holds no trophy while the game is
    idle and exactly four while it is being played or is over, so never
    more than four live ones: the start of a round is always preceded by
    the creation or by the [dispose()] of the restart. *)
Theorem rounds_start_clean (w h : R) (rnd : nat -> R) (now : Q)
    (es : list event) :
  populated (run (init w h rnd now) es)
  /\ (DiscManager.liveCount (discsOf (run (init w h rnd now) es))
      <= DiscManager.TARGET_COUNT)%nat.
Proof.
  assert (G : forall l a, populated a -> populated (run a l)).
  { induction l as [|e l IH]; intros a P; cbn [run fold_left]; [exact P|].
    apply IH. destruct e as [x y|f|w' h']; cbn [step].
    - apply pointerdown_populated, P.
    - apply frame_populated, P.
    - apply resize_populated, P. }
  assert (P : populated (run (init w h rnd now) es)).
  { apply G. unfold populated, init, stateOf, discsOf.
    cbn [gameManager GameManager.setOnGameOver GameManager.create
         GameManager.state GameManager.discManager DiscManager.create
         DiscManager.trophies]. reflexivity. }
  split; [exact P|].
  unfold DiscManager.liveCount.
  eapply Nat.le_trans; [apply filter_length_le|].
  unfold populated in P. destruct (stateOf (run (init w h rnd now) es));
    rewrite P; cbn [length]; unfold DiscManager.TARGET_COUNT; lia.
Qed.

Lemma frame_game_over (a : t) (f : Frame) :
  stateOf a = GameManager.GAME_OVER -> gameManager (frame a f) = gameManager a.
Proof.
  intro S. unfold frame. cbv zeta. rewrite S. reflexivity.
Qed.

(** X26.  The game-over screen is frozen.  While the game is over, no
    frame changes the game manager, its timer, the score manager or the
    disc manager, however many frames pass; a pointer event then goes
    back to idle with the score still readable, the trophies and the
    fragments disposed of, and the trigger cooldown reset. *)
Theorem game_over_is_frozen (a : App.t) (fs : list Frame) :
  stateOf a = GameManager.GAME_OVER ->
  gameManager (run a (map AnimationFrame fs)) = gameManager a
  /\ scoreOf (run a (map AnimationFrame fs)) = scoreOf a
  /\ discsOf (run a (map AnimationFrame fs)) = discsOf a
  /\ (forall x y,
        stateOf (pointerdown a x y) = GameManager.IDLE
        /\ scoreOf (pointerdown a x y) = scoreOf a
        /\ DiscManager.trophies (discsOf (pointerdown a x y)) = []
        /\ DiscManager.fragments (discsOf (pointerdown a x y)) = []
        /\ GestureDetector.lastShotTime (gestureDetector (pointerdown a x y))
           = 0%R).
Proof.
  intro S.
  assert (G : gameManager (run a (map AnimationFrame fs)) = gameManager a).
  { revert a S. induction fs as [|f fs IH]; intros a S;
      cbn [map run fold_left step]; [reflexivity|].
    pose proof (frame_game_over a f S) as E.
    assert (S' : stateOf (frame a f) = GameManager.GAME_OVER)
      by (unfold stateOf in *; rewrite E; exact S).
    specialize (IH (frame a f) S'). unfold run in IH. rewrite IH. exact E. }
  unfold scoreOf, discsOf. rewrite G.
  split; [reflexivity|]. split; [reflexivity|]. split; [reflexivity|].
  intros x y. unfold pointerdown. rewrite S.
  unfold stateOf, withManagers, GameManager.restart.
  cbn [gameManager gestureDetector GameManager.state GameManager.scoreManager
       GameManager.discManager DiscManager.dispose DiscManager.trophies
       DiscManager.fragments GestureDetector.reset
       GestureDetector.lastShotTime].
  repeat split.
Qed.

Lemma game_over_is_frozen_witness :
  let over :=
    withGameManager (init 800 600 (fun _ => 0%R) 0)
      (GameManager.endGame
         (GameManager.startGame (gameManager (init 800 600 (fun _ => 0%R) 0)))) in
  gameManager
    (run over (map AnimationFrame
                   [mkFrame None 16 16 16 16 16 16 16;
                    mkFrame None 33 33 33 33 33 33 33]))
  = gameManager over.
Proof.
  intro over.
  refine (proj1 (game_over_is_frozen over _ _)).
  reflexivity.
Defined.







End AppFacts.
